(** * Resource declarations and the task-modifier merge of
      pkg/apis/pipeline/v1alpha2/resource_types.go

    The development embeds the resource type registry ([AllowedOutputResources],
    [AllResourceTypes]) and the merge function [ApplyTaskModifier] together with
    its helper [checkStepNotAlreadyAdded], and proves the properties the
    specification states about them. *)

From stdpp Require Import gmap strings list.

(** ** Resource type registry *)

(** [type PipelineResourceType string] *)
Abbreviation PipelineResourceType := string (only parsing).

Definition PipelineResourceTypeGit : PipelineResourceType := "git".
Definition PipelineResourceTypeStorage : PipelineResourceType := "storage".
Definition PipelineResourceTypeImage : PipelineResourceType := "image".
Definition PipelineResourceTypeCluster : PipelineResourceType := "cluster".
Definition PipelineResourceTypePullRequest : PipelineResourceType := "pullRequest".
Definition PipelineResourceTypeCloudEvent : PipelineResourceType := "cloudEvent".

(** The Go map literal [map[PipelineResourceType]bool{...}]. *)
Definition AllowedOutputResources : gmap string bool :=
  <[PipelineResourceTypeStorage := true]>
    (<[PipelineResourceTypeGit := true]> ∅).

Definition AllResourceTypes : list PipelineResourceType :=
  [ PipelineResourceTypeGit; PipelineResourceTypeStorage;
    PipelineResourceTypeImage; PipelineResourceTypeCluster;
    PipelineResourceTypePullRequest; PipelineResourceTypeCloudEvent ].

(** Modelled from the spec: the membership predicate [IsValidOutputType] of
    section 4.1 is not part of resource_types.go.  It is the Go map index
    [AllowedOutputResources[t]], which yields the zero value [false] for an
    absent key. *)
Definition IsValidOutputType (t : PipelineResourceType) : bool :=
  default false (AllowedOutputResources !! t).

(** Modelled from the spec: the membership predicate [IsValidType] of
    section 4.1 is not part of resource_types.go.  It is the membership test
    against the slice [AllResourceTypes]. *)
Definition IsValidType (t : PipelineResourceType) : bool :=
  bool_decide (t ∈ AllResourceTypes).

(** ** Data carried by a task *)

(** [Step] is declared in another file of the package; the merge only reads
    its [Name].  Everything else a step holds (container fields, script) is the
    opaque payload [C]. *)
Record Step (C : Type) := mkStep {
  Name : string;
  Container : C;
}.
Arguments mkStep {C} _ _.
Arguments Name {C} _.
Arguments Container {C} _.

#[global] Instance Step_eq_dec {C} `{EqDecision C} : EqDecision (Step C).
Proof. solve_decision. Defined.

(** [v1.Volume] of k8s.io/api/core/v1: a name and the embedded volume source,
    the opaque payload [S]. *)
Module v1.
Record Volume (S : Type) := mkVolume {
  Name : string;
  VolumeSource : S;
}.
Arguments mkVolume {S} _ _.
Arguments Name {S} _.
Arguments VolumeSource {S} _.

#[global] Instance Volume_eq_dec {S} `{EqDecision S} : EqDecision (Volume S).
Proof. solve_decision. Defined.
End v1.

(** [TaskSpec] is declared in another file of the package; the merge reads and
    writes [Steps] and [Volumes] and leaves the remaining fields, [Other],
    alone. *)
Record TaskSpec (C S R : Type) := mkTaskSpec {
  Steps : list (Step C);
  Volumes : list (v1.Volume S);
  Other : R;
}.
Arguments mkTaskSpec {C S R} _ _ _.
Arguments Steps {C S R} _.
Arguments Volumes {C S R} _.
Arguments Other {C S R} _.

(** [ts.Steps = steps] and [ts.Volumes = volumes]. *)
Definition setSteps {C S R} (ts : TaskSpec C S R) (steps : list (Step C))
  : TaskSpec C S R :=
  {| Steps := steps; Volumes := Volumes ts; Other := Other ts |}.

Definition setVolumes {C S R} (ts : TaskSpec C S R) (volumes : list (v1.Volume S))
  : TaskSpec C S R :=
  {| Steps := Steps ts; Volumes := volumes; Other := Other ts |}.

(** ** Errors

    The function has two [fmt.Errorf] sites; an error value is one of them
    with the name it was formatted with. *)
Inductive error : Type :=
  | DuplicateStepName (name : string)
  | ConflictingVolume (name : string).

(** The message of the error, [err.Error()]. *)
Definition Error (e : error) : string :=
  match e with
  | DuplicateStepName name => "Step " +:+ name +:+ " cannot be added again"
  | ConflictingVolume name =>
      "tried to add volume " +:+ name
      +:+ " already added but with different contents"
  end.

Definition isDuplicateStepName (e : error) : bool :=
  match e with DuplicateStepName _ => true | ConflictingVolume _ => false end.

Definition isConflictingVolume (e : error) : bool :=
  match e with DuplicateStepName _ => false | ConflictingVolume _ => true end.

(** ** The TaskModifier interface and its built-in implementation *)

Class TaskModifier (C S T : Type) := {
  GetStepsToPrepend : T → list (Step C);
  GetStepsToAppend : T → list (Step C);
  GetVolumes : T → list (v1.Volume S);
}.

Module InternalTaskModifier.
Record t (C S : Type) := mk {
  StepsToPrepend : list (Step C);
  StepsToAppend : list (Step C);
  Volumes : list (v1.Volume S);
}.
Arguments mk {C S} _ _ _.
Arguments StepsToPrepend {C S} _.
Arguments StepsToAppend {C S} _.
Arguments Volumes {C S} _.
End InternalTaskModifier.

#[global] Instance InternalTaskModifier_TaskModifier {C S}
  : TaskModifier C S (InternalTaskModifier.t C S) := {|
  GetStepsToPrepend tm := InternalTaskModifier.StepsToPrepend tm;
  GetStepsToAppend tm := InternalTaskModifier.StepsToAppend tm;
  GetVolumes tm := InternalTaskModifier.Volumes tm;
|}.

(** ** The merge *)

Section merge.
Context {C S R : Type} `{EqDecision S}.

(** [checkStepNotAlreadyAdded]: the first step of [steps] that bears the name
    of [s] makes the error, formatted with that step's name. *)
Fixpoint checkStepNotAlreadyAdded (s : Step C) (steps : list (Step C))
  : option error :=
  match steps with
  | [] => None
  | step :: steps' =>
      if decide (Name s = Name step)
      then Some (DuplicateStepName (Name step))
      else checkStepNotAlreadyAdded s steps'
  end.

(** The loop [for _, step := range steps { if err := check(step, ts.Steps);
    err != nil { return err } }]; [existing] is [ts.Steps], which the loop
    does not change. *)
Fixpoint checkSteps (steps existing : list (Step C)) : option error :=
  match steps with
  | [] => None
  | step :: steps' =>
      match checkStepNotAlreadyAdded step existing with
      | Some err => Some err
      | None => checkSteps steps' existing
      end
  end.

(** The inner loop over [ts.Volumes] for one [volume]: [inl] is the early
    return of the error, [inr] the final value of [alreadyAdded].
    [cmp.Diff(volume, v) != ""] holds exactly when the two volumes differ
    structurally. *)
Fixpoint scanVolumes (volume : v1.Volume S) (tsVolumes : list (v1.Volume S))
    (alreadyAdded : bool) : error + bool :=
  match tsVolumes with
  | [] => inr alreadyAdded
  | v :: rest =>
      if decide (v1.Name volume = v1.Name v) then
        if decide (volume = v)
        then scanVolumes volume rest true
        else inl (ConflictingVolume (v1.Name volume))
      else scanVolumes volume rest alreadyAdded
  end.

(** The outer loop over [tm.GetVolumes()]: the returned error (if any) and
    [ts.Volumes] as the loop leaves it. *)
Fixpoint mergeVolumes (volumes tsVolumes : list (v1.Volume S))
  : option error * list (v1.Volume S) :=
  match volumes with
  | [] => (None, tsVolumes)
  | volume :: volumes' =>
      match scanVolumes volume tsVolumes false with
      | inl err => (Some err, tsVolumes)
      | inr alreadyAdded =>
          mergeVolumes volumes'
            (if alreadyAdded then tsVolumes else tsVolumes ++ [volume])
      end
  end.

(** [ApplyTaskModifier(ts, tm)]: the returned error ([None] is [nil]) and the
    task spec behind the pointer [ts] when the call returns.  The two
    [append] calls yield the concatenated slices; the slices the modifier
    returns keep their length and elements. *)
Definition ApplyTaskModifier `{TaskModifier C S T}
    (ts : TaskSpec C S R) (tm : T) : option error * TaskSpec C S R :=
  let steps := GetStepsToPrepend tm in
  match checkSteps steps (Steps ts) with
  | Some err => (Some err, ts)
  | None =>
      let ts := setSteps ts (steps ++ Steps ts) in
      let steps := GetStepsToAppend tm in
      match checkSteps steps (Steps ts) with
      | Some err => (Some err, ts)
      | None =>
          let ts := setSteps ts (Steps ts ++ steps) in
          let volumes := GetVolumes tm in
          let '(err, tsVolumes) := mergeVolumes volumes (Volumes ts) in
          (err, setVolumes ts tsVolumes)
      end
  end.

(** The names of a step list and of a volume list. *)
Definition stepNames (steps : list (Step C)) : list string := Name <$> steps.
Definition volumeNames (vs : list (v1.Volume S)) : list string :=
  v1.Name <$> vs.

End merge.

(** ** Concrete tasks used in the examples: payloads are strings *)

Definition step (name : string) : Step string := mkStep name ("run " +:+ name).
Definition volume (name data : string) : v1.Volume string := v1.mkVolume name data.
Definition task (steps : list (Step string)) (volumes : list (v1.Volume string))
  : TaskSpec string string unit := mkTaskSpec steps volumes tt.
Definition modifier (pre app : list (Step string)) (vols : list (v1.Volume string))
  : InternalTaskModifier.t string string := InternalTaskModifier.mk pre app vols.


(** * Properties *)

(** ** The step checks *)

Section step_checks.
Context {C : Type}.
Implicit Types (s : Step C) (steps existing : list (Step C)) (e : error).

Lemma checkStepNotAlreadyAdded_None s steps :
  checkStepNotAlreadyAdded s steps = None ↔ Name s ∉ stepNames steps.
Proof.
  induction steps as [|step steps IH]; simpl.
  - split; [intros _; apply not_elem_of_nil | done].
  - rewrite not_elem_of_cons. case_decide as Hn.
    + split; [done | by intros [? _]].
    + rewrite IH. tauto.
Qed.

Lemma checkStepNotAlreadyAdded_Some s steps e :
  checkStepNotAlreadyAdded s steps = Some e ↔
  e = DuplicateStepName (Name s) ∧ Name s ∈ stepNames steps.
Proof.
  induction steps as [|step steps IH]; simpl.
  - split; [done | intros [_ Hin]; by apply elem_of_nil in Hin].
  - rewrite elem_of_cons. case_decide as Hn.
    + rewrite <- Hn. split; [intros [= <-]; auto | intros [-> _]; done].
    + rewrite IH. tauto.
Qed.

Lemma checkSteps_None steps existing :
  checkSteps steps existing = None ↔
  Forall (λ s, Name s ∉ stepNames existing) steps.
Proof.
  induction steps as [|step steps IH]; simpl.
  - split; [constructor | done].
  - rewrite Forall_cons, <- IH, <- checkStepNotAlreadyAdded_None.
    destruct (checkStepNotAlreadyAdded step existing); [|tauto].
    split; [done | by intros [? _]].
Qed.

Lemma checkSteps_Some steps existing e :
  checkSteps steps existing = Some e →
  ∃ s, s ∈ steps ∧ Name s ∈ stepNames existing ∧ e = DuplicateStepName (Name s).
Proof.
  induction steps as [|step steps IH]; simpl; [done|].
  destruct (checkStepNotAlreadyAdded step existing) as [e'|] eqn:Hc.
  - intros [= ->]. apply checkStepNotAlreadyAdded_Some in Hc as [-> Hin].
    exists step. split; [left | done].
  - intros (s & Hs & Hrest)%IH. exists s. split; [by right | done].
Qed.

(** A colliding step anywhere in the group makes the whole check fail. *)
Lemma checkSteps_collision steps existing s :
  s ∈ steps → Name s ∈ stepNames existing →
  ∃ n, checkSteps steps existing = Some (DuplicateStepName n)
       ∧ n ∈ stepNames steps ∧ n ∈ stepNames existing.
Proof.
  intros Hs Hin.
  destruct (checkSteps steps existing) as [e|] eqn:Hc.
  - apply checkSteps_Some in Hc as (s' & Hs' & Hin' & ->).
    exists (Name s'). split_and!; [done | | done].
    apply list_elem_of_fmap. eauto.
  - apply checkSteps_None in Hc. rewrite Forall_forall in Hc.
    by destruct (Hc s Hs).
Qed.

Lemma stepNames_app steps existing :
  stepNames (steps ++ existing) = stepNames steps ++ stepNames existing.
Proof. apply fmap_app. Qed.

End step_checks.

(** ** The volume scan and merge *)

Section volume_merge.
Context {S : Type} `{EqDecision S}.
Implicit Types (w v : v1.Volume S) (vols vs : list (v1.Volume S)) (e : error).

(** The scan of the existing volumes falls through exactly when every
    same-named entry is identical to the incoming volume; [alreadyAdded] then
    tells whether such an entry exists. *)
Lemma scanVolumes_inr w vs b b' :
  scanVolumes w vs b = inr b' ↔
  (∀ v, v ∈ vs → v1.Name w = v1.Name v → w = v) ∧ b' = b || bool_decide (w ∈ vs).
Proof.
  revert b. induction vs as [|v vs IH]; intros b; simpl.
  - rewrite orb_false_r. split.
    + intros [= <-]. split; [|done]. by intros v ?%elem_of_nil.
    + by intros [_ ->].
  - destruct (decide (v1.Name w = v1.Name v)) as [Hn|Hn];
    [destruct (decide (w = v)) as [Hv|Hv]|].
    + subst v. rewrite IH. rewrite (bool_decide_true (w ∈ w :: vs)) by left.
      rewrite orb_true_r. split.
      * intros [Hall ->]. split; [|done].
        intros v [->|?]%elem_of_cons; auto.
      * intros [Hall ->]. split; [|done].
        intros v ?. apply Hall. by right.
    + split; [done|]. intros [Hall _]. destruct Hv. apply Hall; [left|done].
    + rewrite IH. assert (w ≠ v) by congruence.
      assert (bool_decide (w ∈ v :: vs) = bool_decide (w ∈ vs)) as ->.
      { apply bool_decide_ext. rewrite elem_of_cons. tauto. }
      split.
      * intros [Hall ->]. split; [|done].
        intros v' [->|?]%elem_of_cons; [done | auto].
      * intros [Hall ->]. split; [|done].
        intros v' ?. apply Hall. by right.
Qed.

Lemma scanVolumes_inl w vs b e :
  scanVolumes w vs b = inl e →
  e = ConflictingVolume (v1.Name w)
  ∧ ∃ v, v ∈ vs ∧ v1.Name w = v1.Name v ∧ w ≠ v.
Proof.
  revert b. induction vs as [|v vs IH]; intros b; simpl; [done|].
  destruct (decide (v1.Name w = v1.Name v)) as [Hn|Hn];
    [destruct (decide (w = v)) as [Hv|Hv]|].
  - intros [-> (v' & ? & ?)]%IH. split; [done|]. exists v'. by split; [right|].
  - intros [= <-]. split; [done|]. exists v. by split; [left|].
  - intros [-> (v' & ? & ?)]%IH. split; [done|]. exists v'. by split; [right|].
Qed.

Lemma scanVolumes_conflict w vs b v :
  v ∈ vs → v1.Name w = v1.Name v → w ≠ v →
  scanVolumes w vs b = inl (ConflictingVolume (v1.Name w)).
Proof.
  intros Hin Hn Hne. destruct (scanVolumes w vs b) as [e|b'] eqn:Hs.
  - by apply scanVolumes_inl in Hs as [-> _].
  - apply scanVolumes_inr in Hs as [Hall _]. destruct Hne. by apply Hall.
Qed.

Lemma scanVolumes_fresh w vs b :
  v1.Name w ∉ volumeNames vs → scanVolumes w vs b = inr b.
Proof.
  intros Hf. apply scanVolumes_inr. split.
  - intros v Hv Hn. destruct Hf. rewrite Hn.
    apply list_elem_of_fmap. eauto.
  - rewrite bool_decide_false, orb_false_r; [done|].
    intros Hin. destruct Hf. apply list_elem_of_fmap. eauto.
Qed.

(** A volume is appended only when no existing entry bears its name. *)
Lemma scanVolumes_not_added w vs b :
  scanVolumes w vs false = inr b → v1.Name w ∈ volumeNames vs → b = true.
Proof.
  intros [Hall ->]%scanVolumes_inr (v & Hn & Hv)%list_elem_of_fmap.
  simpl. apply bool_decide_eq_true. by rewrite (Hall v Hv Hn).
Qed.

(** The merge only ever raises the volume error, for one of the incoming
    volumes. *)
Lemma mergeVolumes_error vols vs e vs' :
  mergeVolumes vols vs = (Some e, vs') →
  ∃ w, w ∈ vols ∧ e = ConflictingVolume (v1.Name w).
Proof.
  revert vs. induction vols as [|w vols IH]; intros vs; simpl; [done|].
  destruct (scanVolumes w vs false) as [e'|b] eqn:Hs.
  - intros [= <- <-]. apply scanVolumes_inl in Hs as [-> _].
    exists w. by split; [left|].
  - intros (w' & ? & ?)%IH. exists w'. by split; [right|].
Qed.

(** Entries under a name that is already present are never touched. *)
Lemma mergeVolumes_filter_name vols vs n :
  n ∈ volumeNames vs →
  filter (λ u, v1.Name u = n) (mergeVolumes vols vs).2
  = filter (λ u, v1.Name u = n) vs.
Proof.
  revert vs. induction vols as [|w vols IH]; intros vs Hn; simpl; [done|].
  destruct (scanVolumes w vs false) as [e|[]] eqn:Hs; simpl; [done | by apply IH |].
  rewrite IH.
  - rewrite filter_app, filter_cons_False, filter_nil, app_nil_r; [done|].
    intros <-. by apply scanVolumes_not_added in Hs.
  - unfold volumeNames. rewrite fmap_app, elem_of_app. by left.
Qed.

Lemma mergeVolumes_prefix vols vs :
  vs `prefix_of` (mergeVolumes vols vs).2.
Proof.
  revert vs. induction vols as [|w vols IH]; intros vs; simpl; [done|].
  destruct (scanVolumes w vs false) as [e|[]]; simpl; [done | apply IH |].
  etrans; [|apply IH]. by apply prefix_app_r.
Qed.

End volume_merge.

(** ** The three outcomes of [ApplyTaskModifier] *)

Section apply_task_modifier.
Context {C S R T : Type} `{EqDecision S} `{!TaskModifier C S T}.
Implicit Types (ts : TaskSpec C S R) (tm : T) (e : error).

Lemma ApplyTaskModifier_prepend_rejected ts tm e :
  checkSteps (GetStepsToPrepend tm) (Steps ts) = Some e →
  ApplyTaskModifier ts tm = (Some e, ts).
Proof. intros He. unfold ApplyTaskModifier. by rewrite He. Qed.

Lemma ApplyTaskModifier_append_rejected ts tm e :
  checkSteps (GetStepsToPrepend tm) (Steps ts) = None →
  checkSteps (GetStepsToAppend tm) (GetStepsToPrepend tm ++ Steps ts) = Some e →
  ApplyTaskModifier ts tm
  = (Some e, setSteps ts (GetStepsToPrepend tm ++ Steps ts)).
Proof. intros Hp Ha. unfold ApplyTaskModifier. rewrite Hp. simpl. by rewrite Ha. Qed.

Lemma ApplyTaskModifier_steps_accepted ts tm :
  checkSteps (GetStepsToPrepend tm) (Steps ts) = None →
  checkSteps (GetStepsToAppend tm) (GetStepsToPrepend tm ++ Steps ts) = None →
  ApplyTaskModifier ts tm
  = ((mergeVolumes (GetVolumes tm) (Volumes ts)).1,
     {| Steps := GetStepsToPrepend tm ++ Steps ts ++ GetStepsToAppend tm;
        Volumes := (mergeVolumes (GetVolumes tm) (Volumes ts)).2;
        Other := Other ts |}).
Proof.
  intros Hp Ha. unfold ApplyTaskModifier. rewrite Hp. simpl. rewrite Ha. simpl.
  destruct (mergeVolumes _ _) as [err vs]. unfold setVolumes. simpl.
  by rewrite <- app_assoc.
Qed.

End apply_task_modifier.

(** ** The resource type registry *)

Lemma IsValidOutputType_true t :
  IsValidOutputType t = true ↔
  t = PipelineResourceTypeStorage ∨ t = PipelineResourceTypeGit.
Proof.
  unfold IsValidOutputType, AllowedOutputResources.
  rewrite !lookup_insert, lookup_empty.
  destruct (decide (PipelineResourceTypeStorage = t)) as [<-|Hs]; simpl.
  { split; auto. }
  destruct (decide (PipelineResourceTypeGit = t)) as [<-|Hg]; simpl.
  { split; auto. }
  split; [done | by intros [->| ->]].
Qed.

Lemma IsValidType_true t : IsValidType t = true ↔ t ∈ AllResourceTypes.
Proof. unfold IsValidType. by rewrite bool_decide_eq_true. Qed.

(** C7: the output-legal resource types are exactly storage and git, the
    valid resource types are exactly git, storage, image, cluster, pullRequest
    and cloudEvent; [IsValidOutputType] is false on "image" and true on "git",
    and [IsValidType] is false on every string outside the six, "bogus" among
    them. *)
Theorem registry_membership :
  (∀ t, IsValidOutputType t = true ↔ t = "storage" ∨ t = "git")
  ∧ dom AllowedOutputResources = ({["storage"; "git"]} : gset string)
  ∧ (∀ t, IsValidType t = true ↔
       t = "git" ∨ t = "storage" ∨ t = "image" ∨ t = "cluster"
       ∨ t = "pullRequest" ∨ t = "cloudEvent")
  ∧ AllResourceTypes
    = ["git"; "storage"; "image"; "cluster"; "pullRequest"; "cloudEvent"]
  ∧ IsValidOutputType "image" = false
  ∧ IsValidOutputType "git" = true
  ∧ IsValidType "bogus" = false.
Proof.
  split_and!.
  - apply IsValidOutputType_true.
  - unfold AllowedOutputResources. rewrite !dom_insert_L, dom_empty_L.
    unfold PipelineResourceTypeStorage, PipelineResourceTypeGit. set_solver.
  - intros t. rewrite IsValidType_true. unfold AllResourceTypes.
    rewrite !elem_of_cons, elem_of_nil. unfold PipelineResourceTypeGit,
      PipelineResourceTypeStorage, PipelineResourceTypeImage,
      PipelineResourceTypeCluster, PipelineResourceTypePullRequest,
      PipelineResourceTypeCloudEvent. tauto.
  - reflexivity.
  - apply not_true_is_false. rewrite IsValidOutputType_true. by intros [|].
  - by apply IsValidOutputType_true; right.
  - apply not_true_is_false. rewrite IsValidType_true. unfold AllResourceTypes.
    rewrite !elem_of_cons, elem_of_nil. by intros [|[|[|[|[|[|]]]]]].
Qed.

(** ** The merge: step phases *)

Section step_phases.
Context {C S R T : Type} `{EqDecision S} `{!TaskModifier C S T}.
Implicit Types (ts : TaskSpec C S R) (tm : T) (e : error).

(** C5: a prepend step bearing the name of a step already in the task makes
    the call return the duplicate-step error with the task exactly as it was:
    no step of either group is inserted and no volume is merged. *)
Theorem prepend_collision_leaves_task_unchanged ts tm (s : Step C) :
  s ∈ GetStepsToPrepend tm →
  Name s ∈ stepNames (Steps ts) →
  ∃ n, ApplyTaskModifier ts tm = (Some (DuplicateStepName n), ts)
       ∧ n ∈ stepNames (GetStepsToPrepend tm)
       ∧ n ∈ stepNames (Steps ts).
Proof.
  intros Hs Hin.
  destruct (checkSteps_collision _ _ _ Hs Hin) as (n & Hc & Hn1 & Hn2).
  exists n. split_and!; [|done..]. by apply ApplyTaskModifier_prepend_rejected.
Qed.

(** C6: an append step bearing the name of a step of the same call's prepend
    group makes the call return the duplicate-step error; the append check
    runs against the list that already holds the prepend group, and no append
    step is inserted (the task is either untouched or holds the prepend group
    only). *)
Theorem append_checked_against_prepended_steps ts tm (s p : Step C) :
  s ∈ GetStepsToAppend tm →
  p ∈ GetStepsToPrepend tm →
  Name s = Name p →
  ∃ n ts',
    ApplyTaskModifier ts tm = (Some (DuplicateStepName n), ts')
    ∧ (ts' = ts
       ∨ (checkSteps (GetStepsToPrepend tm) (Steps ts) = None
          ∧ checkSteps (GetStepsToAppend tm) (GetStepsToPrepend tm ++ Steps ts)
            = Some (DuplicateStepName n)
          ∧ ts' = setSteps ts (GetStepsToPrepend tm ++ Steps ts))).
Proof.
  intros Hs Hp Hn.
  destruct (checkSteps (GetStepsToPrepend tm) (Steps ts)) as [e|] eqn:Hpre.
  - destruct (checkSteps_Some _ _ _ Hpre) as (s' & _ & _ & ->).
    exists (Name s'), ts. split; [|by left].
    by apply ApplyTaskModifier_prepend_rejected.
  - assert (Name s ∈ stepNames (GetStepsToPrepend tm ++ Steps ts)) as Hin.
    { rewrite stepNames_app, elem_of_app. left. rewrite Hn.
      apply list_elem_of_fmap. eauto. }
    destruct (checkSteps_collision _ _ _ Hs Hin) as (n & Hc & _).
    exists n, (setSteps ts (GetStepsToPrepend tm ++ Steps ts)).
    split; [by apply ApplyTaskModifier_append_rejected | by right].
Qed.

(** C8: when no prepend step bears the name of a step already in the task,
    the prepend check raises no error and the prepend group is inserted in
    front of the existing steps whatever the append steps and volumes are; an
    error of the call comes from the append check or from the volume merge. *)
Theorem fresh_prepend_never_rejected ts tm :
  Forall (λ s, Name s ∉ stepNames (Steps ts)) (GetStepsToPrepend tm) →
  checkSteps (GetStepsToPrepend tm) (Steps ts) = None
  ∧ ∃ err ts',
      ApplyTaskModifier ts tm = (err, ts')
      ∧ (Steps ts' = GetStepsToPrepend tm ++ Steps ts
         ∨ Steps ts' = GetStepsToPrepend tm ++ Steps ts ++ GetStepsToAppend tm)
      ∧ ∀ e, err = Some e →
          (checkSteps (GetStepsToAppend tm) (GetStepsToPrepend tm ++ Steps ts)
             = Some e
           ∧ isDuplicateStepName e = true)
          ∨ (checkSteps (GetStepsToAppend tm) (GetStepsToPrepend tm ++ Steps ts)
               = None
             ∧ (mergeVolumes (GetVolumes tm) (Volumes ts)).1 = Some e
             ∧ isConflictingVolume e = true).
Proof.
  intros Hpre%checkSteps_None. split; [done|].
  destruct (checkSteps (GetStepsToAppend tm) (GetStepsToPrepend tm ++ Steps ts))
    as [e|] eqn:Happ.
  - eexists _, _. split; [by apply ApplyTaskModifier_append_rejected|].
    split; [by left|]. intros e' [= <-]. left. split; [done|].
    by destruct (checkSteps_Some _ _ _ Happ) as (? & _ & _ & ->).
  - eexists _, _. split; [by apply ApplyTaskModifier_steps_accepted|].
    split; [by right|]. simpl. intros e He. right. split_and!; [done..|].
    destruct (mergeVolumes _ _) as [err vs] eqn:Hm. simpl in He. subst err.
    by destruct (mergeVolumes_error _ _ _ _ Hm) as (? & _ & ->).
Qed.

End step_phases.

(** C2: the call is not transactional.  When the prepend check passes and the
    append check fails, the call returns the append check's error and the
    task keeps the prepend group.  With steps A, B in the task, prepend X and
    append B, the call returns the duplicate-step error for B and leaves the
    steps X, A, B. *)
Theorem append_failure_keeps_prepended_steps :
  (∀ (C S R T : Type) `(EqDecision S) `(!TaskModifier C S T)
     (ts : TaskSpec C S R) (tm : T) (e : error),
     checkSteps (GetStepsToPrepend tm) (Steps ts) = None →
     checkSteps (GetStepsToAppend tm) (GetStepsToPrepend tm ++ Steps ts) = Some e →
     ApplyTaskModifier ts tm
     = (Some e, setSteps ts (GetStepsToPrepend tm ++ Steps ts)))
  ∧ (∀ vols0 vols,
       ApplyTaskModifier (task [step "A"; step "B"] vols0)
         (modifier [step "X"] [step "B"] vols)
       = (Some (DuplicateStepName "B"),
          task [step "X"; step "A"; step "B"] vols0)).
Proof.
  split; [intros; by apply ApplyTaskModifier_append_rejected | done].
Qed.

(** ** The merge: both step groups accepted *)

Section steps_accepted.
Context {C S R T : Type} `{EqDecision S} `{!TaskModifier C S T}.
Implicit Types (ts : TaskSpec C S R) (tm : T) (e : error).

Lemma Forall_fresh_app (steps l1 l2 : list (Step C)) :
  Forall (λ s, Name s ∉ stepNames l1) steps →
  Forall (λ s, Name s ∉ stepNames l2) steps →
  Forall (λ s, Name s ∉ stepNames (l1 ++ l2)) steps.
Proof.
  rewrite !Forall_forall. intros H1 H2 s Hs.
  rewrite stepNames_app, not_elem_of_app. auto.
Qed.

Lemma NoDup_stepNames_app_inv (l1 l2 l3 : list (Step C)) :
  NoDup (stepNames (l1 ++ l2 ++ l3)) →
  NoDup (stepNames l1) ∧ NoDup (stepNames l3).
Proof.
  rewrite !stepNames_app.
  intros (? & _ & (_ & _ & ?)%NoDup_app)%NoDup_app. done.
Qed.

(** C9 (amended): names are never compared inside a contributed group.  When
    every prepend step name is absent from the task's steps, every append step
    name is absent from the prepended list and the volume merge meets no
    conflict, the call succeeds and inserts every contributed step, also when
    two steps of the prepend group, or two of the append group, share a name;
    the task then holds a repeated step name although no error was raised. *)
Theorem sibling_names_not_compared ts tm :
  Forall (λ s, Name s ∉ stepNames (Steps ts)) (GetStepsToPrepend tm) →
  Forall (λ s, Name s ∉ stepNames (GetStepsToPrepend tm ++ Steps ts))
    (GetStepsToAppend tm) →
  (mergeVolumes (GetVolumes tm) (Volumes ts)).1 = None →
  ∃ ts',
    ApplyTaskModifier ts tm = (None, ts')
    ∧ Steps ts' = GetStepsToPrepend tm ++ Steps ts ++ GetStepsToAppend tm
    ∧ (¬ NoDup (stepNames (GetStepsToPrepend tm))
       ∨ ¬ NoDup (stepNames (GetStepsToAppend tm)) →
       ¬ NoDup (stepNames (Steps ts'))).
Proof.
  intros Hpre%checkSteps_None Happ%checkSteps_None Hvol.
  eexists. split.
  { rewrite ApplyTaskModifier_steps_accepted by done. by rewrite Hvol. }
  simpl. split; [done|].
  intros Hdup [? ?]%NoDup_stepNames_app_inv. tauto.
Qed.

End steps_accepted.

(** ** The merge: the volume phase *)

Section volume_phase.
Context {S : Type} `{EqDecision S}.
Implicit Types (w v : v1.Volume S) (vols vs : list (v1.Volume S)) (e : error).

(** What the merge appends bears names that were not present. *)
Lemma mergeVolumes_added vols vs :
  ∃ added, (mergeVolumes vols vs).2 = vs ++ added
           ∧ Forall (λ u, v1.Name u ∉ volumeNames vs) added
           ∧ added ⊆ vols.
Proof.
  revert vs. induction vols as [|w vols IH]; intros vs; simpl.
  { exists []. split_and!; [by rewrite app_nil_r | constructor | set_solver]. }
  destruct (scanVolumes w vs false) as [e|[]] eqn:Hs; simpl.
  - exists []. split_and!; [by rewrite app_nil_r | constructor | set_solver].
  - destruct (IH vs) as (added & Heq & Hf & Hsub). exists added.
    split_and!; [done..|]. set_solver.
  - destruct (IH (vs ++ [w])) as (added & -> & Hf & Hsub).
    exists (w :: added). rewrite <- app_assoc. split_and!; [done| |].
    2:{ intros x [->|Hx]%elem_of_cons; [left | right; by apply Hsub]. }
    constructor.
    + intros Hin. by apply (scanVolumes_not_added _ _ _ Hs) in Hin.
    + eapply Forall_impl; [exact Hf|]. intros u Hu Hin. apply Hu.
      unfold volumeNames. rewrite fmap_app, elem_of_app. by left.
Qed.

(** The merge stops at the first incoming volume that differs from an entry
    of its name; the volumes in front of it have been merged. *)
Lemma mergeVolumes_first_conflict vols vs w v :
  w ∈ vols → v ∈ vs → v1.Name w = v1.Name v → w ≠ v →
  ∃ l1 w' l2 vs1,
    vols = l1 ++ w' :: l2
    ∧ mergeVolumes l1 vs = (None, vs1)
    ∧ (∃ v', v' ∈ vs1 ∧ v1.Name w' = v1.Name v' ∧ w' ≠ v')
    ∧ w ∈ w' :: l2
    ∧ mergeVolumes vols vs = (Some (ConflictingVolume (v1.Name w')), vs1).
Proof.
  revert vs. induction vols as [|a vols IH]; intros vs Hw Hv Hn Hne.
  { by apply elem_of_nil in Hw. }
  destruct (scanVolumes a vs false) as [e|b] eqn:Hs.
  - exists [], a, vols, vs. simpl. rewrite Hs.
    apply scanVolumes_inl in Hs as [-> Hex]. done.
  - assert (w ∈ vols) as Hw'.
    { apply elem_of_cons in Hw as [->|?]; [|done].
      by rewrite (scanVolumes_conflict _ _ _ _ Hv Hn Hne) in Hs. }
    set (vs2 := if b then vs else vs ++ [a]).
    assert (v ∈ vs2) as Hv2.
    { unfold vs2. destruct b; [done|]. rewrite elem_of_app. by left. }
    destruct (IH vs2 Hw' Hv2 Hn Hne) as (l1 & w' & l2 & vs1 & -> & Hm & Hex & Hin & Hr).
    exists (a :: l1), w', l2, vs1. simpl. rewrite Hs. fold vs2.
    split_and!; done.
Qed.

(** After a successful merge every incoming volume is present and is the only
    content under its name. *)
Lemma mergeVolumes_success vols vs vs' :
  mergeVolumes vols vs = (None, vs') →
  ∀ w, w ∈ vols →
    w ∈ vs' ∧ ∀ v, v ∈ vs' → v1.Name w = v1.Name v → w = v.
Proof.
  revert vs. induction vols as [|a vols IH]; intros vs Hm w Hw.
  { by apply elem_of_nil in Hw. }
  simpl in Hm. destruct (scanVolumes a vs false) as [e|b] eqn:Hs; [done|].
  apply elem_of_cons in Hw as [->|Hw]; [|by eapply IH].
  set (vs2 := if b then vs else vs ++ [a]) in *.
  apply scanVolumes_inr in Hs as [Hall ->]. simpl in vs2.
  assert (a ∈ vs2) as Hin.
  { unfold vs2. case_bool_decide; [done|]. rewrite elem_of_app, list_elem_of_singleton. by right. }
  assert (∀ v, v ∈ vs2 → v1.Name a = v1.Name v → a = v) as Hall2.
  { unfold vs2. case_bool_decide; [done|].
    intros v [?| ->%list_elem_of_singleton]%elem_of_app; auto. }
  pose proof (mergeVolumes_prefix vols vs2) as [k Hk].
  rewrite Hm in Hk. simpl in Hk.
  split; [rewrite Hk, elem_of_app; by left|].
  intros v Hv Hn.
  assert (v ∈ filter (λ u, v1.Name u = v1.Name a) vs') as Hf.
  { apply list_elem_of_filter. done. }
  pose proof (mergeVolumes_filter_name vols vs2 (v1.Name a)) as Hfilter.
  rewrite Hm in Hfilter. simpl in Hfilter. rewrite Hfilter in Hf.
  - apply list_elem_of_filter in Hf as [_ Hf]. by apply Hall2.
  - apply list_elem_of_fmap. eauto.
Qed.

(** Volumes that are all present, each the only content under its name, merge
    without any change. *)
Lemma mergeVolumes_noop vols vs :
  (∀ w, w ∈ vols → w ∈ vs ∧ ∀ v, v ∈ vs → v1.Name w = v1.Name v → w = v) →
  mergeVolumes vols vs = (None, vs).
Proof.
  induction vols as [|a vols IH]; intros Hall; simpl; [done|].
  destruct (Hall a) as [Hin Hsame]; [left|].
  assert (scanVolumes a vs false = inr true) as ->.
  { apply scanVolumes_inr. split; [done|]. by rewrite bool_decide_true. }
  apply IH. intros w Hw. apply Hall. by right.
Qed.

End volume_phase.

Section volume_claims.
Context {C S R T : Type} `{EqDecision S} `{!TaskModifier C S T}.
Implicit Types (ts : TaskSpec C S R) (tm : T) (w v : v1.Volume S).

(** Both step checks pass: the call reaches the volume merge. *)
Lemma steps_accepted_merge ts tm :
  Forall (λ s, Name s ∉ stepNames (Steps ts)) (GetStepsToPrepend tm) →
  Forall (λ s, Name s ∉ stepNames (GetStepsToPrepend tm ++ Steps ts))
    (GetStepsToAppend tm) →
  ApplyTaskModifier ts tm
  = ((mergeVolumes (GetVolumes tm) (Volumes ts)).1,
     {| Steps := GetStepsToPrepend tm ++ Steps ts ++ GetStepsToAppend tm;
        Volumes := (mergeVolumes (GetVolumes tm) (Volumes ts)).2;
        Other := Other ts |}).
Proof.
  intros Hpre%checkSteps_None Happ%checkSteps_None.
  by apply ApplyTaskModifier_steps_accepted.
Qed.

(** C10 (amended): the volume merge is not atomic.  When no step check aborts
    the call and the modifier's volumes are v1, v2 with the name of v1 absent
    from the task and v2 differing from an existing volume of its name, the
    call returns the conflicting-volume error for v2 and the task keeps v1,
    appended to its volumes. *)
Theorem volume_merge_keeps_earlier_volumes ts tm w1 w2 v :
  Forall (λ s, Name s ∉ stepNames (Steps ts)) (GetStepsToPrepend tm) →
  Forall (λ s, Name s ∉ stepNames (GetStepsToPrepend tm ++ Steps ts))
    (GetStepsToAppend tm) →
  GetVolumes tm = [w1; w2] →
  v1.Name w1 ∉ volumeNames (Volumes ts) →
  v ∈ Volumes ts → v1.Name w2 = v1.Name v → w2 ≠ v →
  ApplyTaskModifier ts tm
  = (Some (ConflictingVolume (v1.Name w2)),
     {| Steps := GetStepsToPrepend tm ++ Steps ts ++ GetStepsToAppend tm;
        Volumes := Volumes ts ++ [w1];
        Other := Other ts |}).
Proof.
  intros Hpre Happ Hvols Hfresh Hv Hn Hne.
  rewrite steps_accepted_merge, Hvols by done. simpl.
  rewrite scanVolumes_fresh by done.
  rewrite (scanVolumes_conflict w2 _ _ v); [done | | done..].
  rewrite elem_of_app. by left.
Qed.

End volume_claims.

Section call_inversion.
Context {C S R T : Type} `{EqDecision S} `{!TaskModifier C S T}.
Implicit Types (ts : TaskSpec C S R) (tm : T).

(** A call that returns no error has passed both step checks and merged every
    volume. *)
Lemma ApplyTaskModifier_success_inv ts tm ts1 :
  ApplyTaskModifier ts tm = (None, ts1) →
  checkSteps (GetStepsToPrepend tm) (Steps ts) = None
  ∧ checkSteps (GetStepsToAppend tm) (GetStepsToPrepend tm ++ Steps ts) = None
  ∧ mergeVolumes (GetVolumes tm) (Volumes ts) = (None, Volumes ts1)
  ∧ Steps ts1 = GetStepsToPrepend tm ++ Steps ts ++ GetStepsToAppend tm
  ∧ Other ts1 = Other ts.
Proof.
  intros Hrun.
  destruct (checkSteps (GetStepsToPrepend tm) (Steps ts)) as [e|] eqn:Hpre.
  { by rewrite (ApplyTaskModifier_prepend_rejected _ _ _ Hpre) in Hrun. }
  destruct (checkSteps (GetStepsToAppend tm) (GetStepsToPrepend tm ++ Steps ts))
    as [e|] eqn:Happ.
  { by rewrite (ApplyTaskModifier_append_rejected _ _ _ Hpre Happ) in Hrun. }
  rewrite (ApplyTaskModifier_steps_accepted _ _ Hpre Happ) in Hrun.
  destruct (mergeVolumes _ _) as [err vs]. simpl in Hrun.
  by injection Hrun as -> <-.
Qed.

End call_inversion.

(** C3 (amended): when no step check aborts the call and the modifier
    contributes a volume [w] that differs from an existing volume of its
    name, the call returns the conflicting-volume error naming the first
    contributed volume [w'] that meets such a conflict ([w] itself unless an
    earlier one does); the volumes contributed before [w'] stay merged,
    nothing is added under the name of [w], and the task keeps exactly the
    entries it had under that name (exactly one, the first, when it had one).
    Starting from no volumes, adding creds with data X succeeds, and adding
    creds with data Y afterwards fails with the volumes unchanged. *)
Theorem conflicting_volume_rejected :
  (∀ (C S R T : Type) `(EqDecision S) `(!TaskModifier C S T)
     (ts : TaskSpec C S R) (tm : T) (w v : v1.Volume S),
     Forall (λ s, Name s ∉ stepNames (Steps ts)) (GetStepsToPrepend tm) →
     Forall (λ s, Name s ∉ stepNames (GetStepsToPrepend tm ++ Steps ts))
       (GetStepsToAppend tm) →
     w ∈ GetVolumes tm → v ∈ Volumes ts → v1.Name w = v1.Name v → w ≠ v →
     ∃ l1 w' l2 added,
       GetVolumes tm = l1 ++ w' :: l2
       ∧ w ∈ w' :: l2
       ∧ mergeVolumes l1 (Volumes ts) = (None, Volumes ts ++ added)
       ∧ (∃ v', v' ∈ Volumes ts ++ added ∧ v1.Name w' = v1.Name v' ∧ w' ≠ v')
       ∧ (v1.Name w ∉ volumeNames added)
       ∧ ApplyTaskModifier ts tm
         = (Some (ConflictingVolume (v1.Name w')),
            {| Steps := GetStepsToPrepend tm ++ Steps ts ++ GetStepsToAppend tm;
               Volumes := Volumes ts ++ added;
               Other := Other ts |})
       ∧ filter (λ u, v1.Name u = v1.Name w) (Volumes ts ++ added)
         = filter (λ u, v1.Name u = v1.Name w) (Volumes ts))
  ∧ (∀ steps,
       ApplyTaskModifier (task steps []) (modifier [] [] [volume "creds" "X"])
       = (None, task steps [volume "creds" "X"]))
  ∧ (∀ steps,
       ApplyTaskModifier (task steps [volume "creds" "X"])
         (modifier [] [] [volume "creds" "Y"])
       = (Some (ConflictingVolume "creds"), task steps [volume "creds" "X"])).
Proof.
  split_and!.
  - intros C S R T ? ? ts tm w v Hpre Happ Hw Hv Hn Hne.
    destruct (mergeVolumes_first_conflict _ _ _ _ Hw Hv Hn Hne)
      as (l1 & w' & l2 & vs1 & Hvols & Hm1 & Hex & Hin & Hm).
    destruct (mergeVolumes_added l1 (Volumes ts)) as (added & Hadd & Hfresh & _).
    rewrite Hm1 in Hadd. simpl in Hadd. subst vs1.
    assert (v1.Name w ∈ volumeNames (Volumes ts)) as Hpresent.
    { rewrite Hn. apply list_elem_of_fmap. eauto. }
    exists l1, w', l2, added. split_and!; [done..| | |].
    + intros (u & Hu & Hu')%list_elem_of_fmap.
      rewrite Forall_forall in Hfresh. apply (Hfresh u Hu'). by rewrite <- Hu.
    + rewrite steps_accepted_merge by done. by rewrite Hm.
    + pose proof (mergeVolumes_filter_name l1 _ _ Hpresent) as Hf.
      by rewrite Hm1 in Hf.
  - intros steps. unfold ApplyTaskModifier. simpl. by rewrite app_nil_r.
  - intros steps. unfold ApplyTaskModifier. simpl. by rewrite app_nil_r.
Qed.

(** C4 (amended): when no step check aborts the call and every contributed
    volume is already among the task's volumes, every entry of its name being
    identical to it, the call succeeds and leaves the volumes as they were,
    of the same length.  This is the case after a call that succeeded:
    applying the same volumes a second time succeeds and changes no volume. *)
Theorem identical_volume_is_noop :
  (∀ (C S R T : Type) `(EqDecision S) `(!TaskModifier C S T)
     (ts : TaskSpec C S R) (tm : T),
     Forall (λ s, Name s ∉ stepNames (Steps ts)) (GetStepsToPrepend tm) →
     Forall (λ s, Name s ∉ stepNames (GetStepsToPrepend tm ++ Steps ts))
       (GetStepsToAppend tm) →
     Forall (λ w, w ∈ Volumes ts
                  ∧ Forall (λ v, v1.Name w = v1.Name v → w = v) (Volumes ts))
       (GetVolumes tm) →
     ApplyTaskModifier ts tm
     = (None,
        {| Steps := GetStepsToPrepend tm ++ Steps ts ++ GetStepsToAppend tm;
           Volumes := Volumes ts;
           Other := Other ts |}))
  ∧ (∀ (C S R T : Type) `(EqDecision S) `(!TaskModifier C S T)
       (ts ts1 : TaskSpec C S R) (tm tm' : T),
       ApplyTaskModifier ts tm = (None, ts1) →
       GetVolumes tm' = GetVolumes tm →
       Forall (λ s, Name s ∉ stepNames (Steps ts1)) (GetStepsToPrepend tm') →
       Forall (λ s, Name s ∉ stepNames (GetStepsToPrepend tm' ++ Steps ts1))
         (GetStepsToAppend tm') →
       ∃ ts2, ApplyTaskModifier ts1 tm' = (None, ts2)
              ∧ Volumes ts2 = Volumes ts1
              ∧ length (Volumes ts2) = length (Volumes ts1)).
Proof.
  assert (∀ (C S R T : Type) `(EqDecision S) `(!TaskModifier C S T)
     (ts : TaskSpec C S R) (tm : T),
     Forall (λ s, Name s ∉ stepNames (Steps ts)) (GetStepsToPrepend tm) →
     Forall (λ s, Name s ∉ stepNames (GetStepsToPrepend tm ++ Steps ts))
       (GetStepsToAppend tm) →
     Forall (λ w, w ∈ Volumes ts
                  ∧ Forall (λ v, v1.Name w = v1.Name v → w = v) (Volumes ts))
       (GetVolumes tm) →
     ApplyTaskModifier ts tm
     = (None,
        {| Steps := GetStepsToPrepend tm ++ Steps ts ++ GetStepsToAppend tm;
           Volumes := Volumes ts;
           Other := Other ts |})) as Hnoop.
  { intros C S R T ? ? ts tm Hpre Happ Hall.
    rewrite steps_accepted_merge by done.
    rewrite mergeVolumes_noop; [done|].
    rewrite Forall_forall in Hall. intros w [Hin Hsame]%Hall.
    rewrite Forall_forall in Hsame. auto. }
  split; [exact Hnoop|].
  intros C S R T ? ? ts ts1 tm tm' Hrun Hvols Hpre Happ.
  apply ApplyTaskModifier_success_inv in Hrun as (_ & _ & Hm & _).
  rewrite Hnoop; [by eexists | done.. |].
  rewrite Hvols. apply Forall_forall. intros w Hw.
  destruct (mergeVolumes_success _ _ _ Hm w Hw) as [Hin Hsame].
  split; [done|]. apply Forall_forall. auto.
Qed.

(** ** Runs on concrete tasks *)

Lemma prepend_collision_leaves_task_unchanged_witness :
  step "B" ∈ [step "X"; step "B"]
  ∧ Name (step "B") ∈ stepNames [step "A"; step "B"]
  ∧ ∃ n,
      ApplyTaskModifier (task [step "A"; step "B"] [volume "creds" "X"])
        (modifier [step "X"; step "B"] [step "Y"] [volume "cache" "Z"])
      = (Some (DuplicateStepName n),
         task [step "A"; step "B"] [volume "creds" "X"])
      ∧ n ∈ stepNames [step "X"; step "B"]
      ∧ n ∈ stepNames [step "A"; step "B"].
Proof.
  split; [compute_done|]. split; [compute_done|].
  exact (prepend_collision_leaves_task_unchanged
           (task [step "A"; step "B"] [volume "creds" "X"])
           (modifier [step "X"; step "B"] [step "Y"] [volume "cache" "Z"])
           (step "B") ltac:(compute_done) ltac:(compute_done)).
Defined.

Lemma append_checked_against_prepended_steps_witness :
  step "X" ∈ [step "Y"; step "X"]
  ∧ step "X" ∈ [step "X"]
  ∧ ∃ n ts',
      ApplyTaskModifier (task [step "A"] [])
        (modifier [step "X"] [step "Y"; step "X"] [volume "cache" "Z"])
      = (Some (DuplicateStepName n), ts')
      ∧ (ts' = task [step "A"] []
         ∨ (checkSteps [step "X"] [step "A"] = None
            ∧ checkSteps [step "Y"; step "X"] [step "X"; step "A"]
              = Some (DuplicateStepName n)
            ∧ ts' = task [step "X"; step "A"] [])).
Proof.
  split; [compute_done|]. split; [compute_done|].
  exact (append_checked_against_prepended_steps
           (task [step "A"] [])
           (modifier [step "X"] [step "Y"; step "X"] [volume "cache" "Z"])
           (step "X") (step "X")
           ltac:(compute_done) ltac:(compute_done) eq_refl).
Defined.

Lemma fresh_prepend_never_rejected_witness :
  Forall (λ s, Name s ∉ stepNames [step "A"; step "B"]) [step "X"]
  ∧ checkSteps [step "X"] [step "A"; step "B"] = None
  ∧ ∃ err ts',
      ApplyTaskModifier (task [step "A"; step "B"] [volume "creds" "X"])
        (modifier [step "X"] [step "B"] [volume "creds" "Y"])
      = (err, ts')
      ∧ (Steps ts' = [step "X"; step "A"; step "B"]
         ∨ Steps ts' = [step "X"; step "A"; step "B"; step "B"])
      ∧ ∀ e, err = Some e →
          (checkSteps [step "B"] [step "X"; step "A"; step "B"] = Some e
           ∧ isDuplicateStepName e = true)
          ∨ (checkSteps [step "B"] [step "X"; step "A"; step "B"] = None
             ∧ (mergeVolumes [volume "creds" "Y"] [volume "creds" "X"]).1
               = Some e
             ∧ isConflictingVolume e = true).
Proof.
  split; [compute_done|].
  exact (fresh_prepend_never_rejected
           (task [step "A"; step "B"] [volume "creds" "X"])
           (modifier [step "X"] [step "B"] [volume "creds" "Y"])
           ltac:(compute_done)).
Defined.

Lemma append_failure_keeps_prepended_steps_witness :
  checkSteps [step "X"] [step "A"; step "B"] = None
  ∧ checkSteps [step "B"] [step "X"; step "A"; step "B"]
    = Some (DuplicateStepName "B")
  ∧ ApplyTaskModifier (task [step "A"; step "B"] [])
      (modifier [step "X"] [step "B"] [])
    = (Some (DuplicateStepName "B"), task [step "X"; step "A"; step "B"] []).
Proof.
  split; [reflexivity|]. split; [reflexivity|].
  exact (proj1 append_failure_keeps_prepended_steps _ _ _ _ _ _
           (task [step "A"; step "B"] [])
           (modifier [step "X"] [step "B"] [])
           (DuplicateStepName "B") eq_refl eq_refl).
Defined.

(** C1 as stated fails: the step names of the task (A), of the prepend group
    (P) and of the append group (Q) are pairwise disjoint, yet the call does
    not succeed: the modifier's volume creds differs from the task's. *)
Lemma disjoint_groups_conflicting_volume :
  Forall (λ s, Name s ∉ stepNames [step "A"]) [step "P"]
  ∧ Forall (λ s, Name s ∉ stepNames [step "A"]) [step "Q"]
  ∧ Forall (λ s, Name s ∉ stepNames [step "P"]) [step "Q"]
  ∧ ApplyTaskModifier (task [step "A"] [volume "creds" "X"])
      (modifier [step "P"] [step "Q"] [volume "creds" "Y"])
    = (Some (ConflictingVolume "creds"),
       task [step "P"; step "A"; step "Q"] [volume "creds" "X"]).
Proof. split_and!; [compute_done..|reflexivity]. Qed.

(** C9 as stated fails: the prepend group holds two steps named X, a name the
    task does not have, yet the call does not succeed: the append step A
    collides with the task's step A and the duplicate-step error is
    returned. *)
Lemma sibling_duplicates_with_colliding_append :
  Name (mkStep "X" "one") = Name (mkStep "X" "two")
  ∧ mkStep "X" "one" ≠ mkStep "X" "two"
  ∧ ("X" ∉ stepNames [step "A"])
  ∧ ApplyTaskModifier (task [step "A"] [])
      (modifier [mkStep "X" "one"; mkStep "X" "two"] [step "A"] [])
    = (Some (DuplicateStepName "A"),
       task [mkStep "X" "one"; mkStep "X" "two"; step "A"] []).
Proof. split_and!; [reflexivity | compute_done | compute_done | reflexivity]. Qed.

Lemma sibling_names_not_compared_witness :
  Forall (λ s, Name s ∉ stepNames [step "A"])
    [mkStep "X" "one"; mkStep "X" "two"]
  ∧ Forall (λ s, Name s ∉ stepNames
                   [mkStep "X" "one"; mkStep "X" "two"; step "A"])
      [mkStep "Y" "one"; mkStep "Y" "two"]
  ∧ (mergeVolumes [volume "cache" "Z"] [volume "creds" "X"]).1 = None
  ∧ ∃ ts',
      ApplyTaskModifier (task [step "A"] [volume "creds" "X"])
        (modifier [mkStep "X" "one"; mkStep "X" "two"]
           [mkStep "Y" "one"; mkStep "Y" "two"] [volume "cache" "Z"])
      = (None, ts')
      ∧ Steps ts' = [mkStep "X" "one"; mkStep "X" "two"; step "A";
                     mkStep "Y" "one"; mkStep "Y" "two"]
      ∧ (¬ NoDup (stepNames [mkStep "X" "one"; mkStep "X" "two"])
         ∨ ¬ NoDup (stepNames [mkStep "Y" "one"; mkStep "Y" "two"]) →
         ¬ NoDup (stepNames (Steps ts'))).
Proof.
  split; [compute_done|]. split; [compute_done|]. split; [reflexivity|].
  exact (sibling_names_not_compared
           (task [step "A"] [volume "creds" "X"])
           (modifier [mkStep "X" "one"; mkStep "X" "two"]
              [mkStep "Y" "one"; mkStep "Y" "two"] [volume "cache" "Z"])
           ltac:(compute_done) ltac:(compute_done) eq_refl).
Defined.

(** The run of the witness above ends with the step names X, X, A, Y, Y. *)
Example run_sibling_duplicates :
  ApplyTaskModifier (task [step "A"] [])
    (modifier [mkStep "X" "one"; mkStep "X" "two"]
       [mkStep "Y" "one"; mkStep "Y" "two"] [])
  = (None, task [mkStep "X" "one"; mkStep "X" "two"; step "A";
                 mkStep "Y" "one"; mkStep "Y" "two"] [])
  ∧ ¬ NoDup ["X"; "X"; "A"; "Y"; "Y"].
Proof. split; [reflexivity | compute_done]. Qed.

(** C10 as stated fails: the modifier's volumes are cache, whose name is
    fresh, and creds, which differs from the task's creds, yet the call
    returns the duplicate-step error (the prepend step A collides) and cache
    is not appended. *)
Lemma volume_pair_with_colliding_step :
  (v1.Name (volume "cache" "P") ∉ volumeNames [volume "creds" "X"])
  ∧ volume "creds" "X" ∈ [volume "creds" "X"]
  ∧ v1.Name (volume "creds" "Y") = v1.Name (volume "creds" "X")
  ∧ volume "creds" "Y" ≠ volume "creds" "X"
  ∧ ApplyTaskModifier (task [step "A"] [volume "creds" "X"])
      (modifier [step "A"] [] [volume "cache" "P"; volume "creds" "Y"])
    = (Some (DuplicateStepName "A"), task [step "A"] [volume "creds" "X"]).
Proof.
  split_and!; [compute_done | compute_done | reflexivity | compute_done
              | reflexivity].
Qed.

Lemma volume_merge_keeps_earlier_volumes_witness :
  Forall (λ s, Name s ∉ stepNames [step "A"]) [step "P"]
  ∧ Forall (λ s, Name s ∉ stepNames [step "P"; step "A"]) [step "Q"]
  ∧ (v1.Name (volume "cache" "Z") ∉ volumeNames [volume "creds" "X"])
  ∧ volume "creds" "X" ∈ [volume "creds" "X"]
  ∧ volume "creds" "Y" ≠ volume "creds" "X"
  ∧ ApplyTaskModifier (task [step "A"] [volume "creds" "X"])
      (modifier [step "P"] [step "Q"]
         [volume "cache" "Z"; volume "creds" "Y"])
    = (Some (ConflictingVolume "creds"),
       task [step "P"; step "A"; step "Q"]
         [volume "creds" "X"; volume "cache" "Z"]).
Proof.
  split; [compute_done|]. split; [compute_done|]. split; [compute_done|].
  split; [compute_done|]. split; [compute_done|].
  exact (volume_merge_keeps_earlier_volumes
           (task [step "A"] [volume "creds" "X"])
           (modifier [step "P"] [step "Q"]
              [volume "cache" "Z"; volume "creds" "Y"])
           (volume "cache" "Z") (volume "creds" "Y") (volume "creds" "X")
           ltac:(compute_done) ltac:(compute_done) eq_refl
           ltac:(compute_done) ltac:(compute_done) eq_refl
           ltac:(compute_done)).
Defined.

(** C3 as stated fails in three ways.  First: the modifier's volume creds
    differs from the task's creds, yet the error returned is the
    duplicate-step error, because the prepend step A collides before any
    volume is looked at.  Second: the task holds two entries named creds; the
    call returns the conflicting-volume error and the task still holds two
    entries under that name, not exactly one.  Third: the contributed volume
    creds differs from the task's creds, but the error names cache, an
    earlier contributed volume that conflicts as well. *)
Lemma conflicting_volume_other_outcomes :
  (volume "creds" "Y" ∈ [volume "creds" "Y"]
   ∧ volume "creds" "X" ∈ [volume "creds" "X"]
   ∧ volume "creds" "Y" ≠ volume "creds" "X"
   ∧ ApplyTaskModifier (task [step "A"] [volume "creds" "X"])
       (modifier [step "A"] [] [volume "creds" "Y"])
     = (Some (DuplicateStepName "A"), task [step "A"] [volume "creds" "X"]))
  ∧ (volume "creds" "X" ∈ [volume "creds" "X"; volume "creds" "X"]
     ∧ volume "creds" "Y" ≠ volume "creds" "X"
     ∧ ApplyTaskModifier (task [] [volume "creds" "X"; volume "creds" "X"])
         (modifier [] [] [volume "creds" "Y"])
       = (Some (ConflictingVolume "creds"),
          task [] [volume "creds" "X"; volume "creds" "X"])
     ∧ length (filter (λ u, v1.Name u = "creds")
                 [volume "creds" "X"; volume "creds" "X"]) = 2)
  ∧ (volume "creds" "Y" ∈ [volume "cache" "Q"; volume "creds" "Y"]
     ∧ volume "creds" "X" ∈ [volume "cache" "P"; volume "creds" "X"]
     ∧ volume "creds" "Y" ≠ volume "creds" "X"
     ∧ ApplyTaskModifier (task [] [volume "cache" "P"; volume "creds" "X"])
         (modifier [] [] [volume "cache" "Q"; volume "creds" "Y"])
       = (Some (ConflictingVolume "cache"),
          task [] [volume "cache" "P"; volume "creds" "X"])).
Proof.
  split_and!; [compute_done | compute_done | compute_done | reflexivity
              | compute_done | compute_done | reflexivity | reflexivity
              | compute_done | compute_done | compute_done | reflexivity].
Qed.

Lemma conflicting_volume_rejected_witness :
  Forall (λ s, Name s ∉ stepNames [step "A"]) [step "P"]
  ∧ Forall (λ s, Name s ∉ stepNames [step "P"; step "A"]) [step "Q"]
  ∧ volume "creds" "Y" ∈ [volume "cache" "Z"; volume "creds" "Y"]
  ∧ volume "creds" "X" ∈ [volume "creds" "X"]
  ∧ volume "creds" "Y" ≠ volume "creds" "X"
  ∧ ∃ l1 w' l2 added,
      [volume "cache" "Z"; volume "creds" "Y"] = l1 ++ w' :: l2
      ∧ volume "creds" "Y" ∈ w' :: l2
      ∧ mergeVolumes l1 [volume "creds" "X"]
        = (None, [volume "creds" "X"] ++ added)
      ∧ (∃ v', v' ∈ [volume "creds" "X"] ++ added
               ∧ v1.Name w' = v1.Name v' ∧ w' ≠ v')
      ∧ ("creds" ∉ volumeNames added)
      ∧ ApplyTaskModifier (task [step "A"] [volume "creds" "X"])
          (modifier [step "P"] [step "Q"]
             [volume "cache" "Z"; volume "creds" "Y"])
        = (Some (ConflictingVolume (v1.Name w')),
           task [step "P"; step "A"; step "Q"] ([volume "creds" "X"] ++ added))
      ∧ filter (λ u, v1.Name u = "creds") ([volume "creds" "X"] ++ added)
        = filter (λ u, v1.Name u = "creds") [volume "creds" "X"].
Proof.
  split; [compute_done|]. split; [compute_done|]. split; [compute_done|].
  split; [compute_done|]. split; [compute_done|].
  exact (proj1 conflicting_volume_rejected _ _ _ _ _ _
           (task [step "A"] [volume "creds" "X"])
           (modifier [step "P"] [step "Q"]
              [volume "cache" "Z"; volume "creds" "Y"])
           (volume "creds" "Y") (volume "creds" "X")
           ltac:(compute_done) ltac:(compute_done) ltac:(compute_done)
           ltac:(compute_done) eq_refl ltac:(compute_done)).
Defined.

(** C4 as stated fails twice.  First: the task already holds creds with data
    X, and a second entry creds with data Y; contributing creds with data X
    returns the conflicting-volume error.  Second: the task holds creds with
    data X and the modifier contributes the identical volume, but its prepend
    step A collides and the call returns the duplicate-step error. *)
Lemma identical_volume_other_outcomes :
  (volume "creds" "X" ∈ [volume "creds" "X"; volume "creds" "Y"]
   ∧ ApplyTaskModifier (task [] [volume "creds" "X"; volume "creds" "Y"])
       (modifier [] [] [volume "creds" "X"])
     = (Some (ConflictingVolume "creds"),
        task [] [volume "creds" "X"; volume "creds" "Y"]))
  ∧ (volume "creds" "X" ∈ [volume "creds" "X"]
     ∧ ApplyTaskModifier (task [step "A"] [volume "creds" "X"])
         (modifier [step "A"] [] [volume "creds" "X"])
       = (Some (DuplicateStepName "A"), task [step "A"] [volume "creds" "X"])).
Proof.
  split_and!; [compute_done | reflexivity | compute_done | reflexivity].
Qed.

Lemma identical_volume_is_noop_witness :
  Forall (λ s, Name s ∉ stepNames [step "A"]) [step "P"]
  ∧ Forall (λ s, Name s ∉ stepNames [step "P"; step "A"]) [step "Q"]
  ∧ Forall (λ w, w ∈ [volume "creds" "X"; volume "cache" "Z"]
                 ∧ Forall (λ v, v1.Name w = v1.Name v → w = v)
                     [volume "creds" "X"; volume "cache" "Z"])
      [volume "creds" "X"]
  ∧ ApplyTaskModifier
      (task [step "A"] [volume "creds" "X"; volume "cache" "Z"])
      (modifier [step "P"] [step "Q"] [volume "creds" "X"])
    = (None, task [step "P"; step "A"; step "Q"]
               [volume "creds" "X"; volume "cache" "Z"]).
Proof.
  split; [compute_done|]. split; [compute_done|]. split; [compute_done|].
  exact (proj1 identical_volume_is_noop _ _ _ _ _ _
           (task [step "A"] [volume "creds" "X"; volume "cache" "Z"])
           (modifier [step "P"] [step "Q"] [volume "creds" "X"])
           ltac:(compute_done) ltac:(compute_done) ltac:(compute_done)).
Defined.

(** * Further properties of the merge *)

(** ** Which step is reported *)

Section reported_step.
Context {C S R T : Type} `{EqDecision S} `{!TaskModifier C S T}.
Implicit Types (s : Step C) (steps existing : list (Step C)).
Implicit Types (ts : TaskSpec C S R) (tm : T).

(** X1: the check of one step against a list: an error exactly when the name is
    taken, and the error carries that name; on the empty list there is never
    an error. *)
Theorem checkStepNotAlreadyAdded_decides s steps :
  checkStepNotAlreadyAdded s steps
  = (if bool_decide (Name s ∈ stepNames steps)
     then Some (DuplicateStepName (Name s)) else None)
  ∧ checkStepNotAlreadyAdded s [] = None.
Proof.
  split; [|done]. case_bool_decide as Hin.
  - by apply checkStepNotAlreadyAdded_Some.
  - by apply checkStepNotAlreadyAdded_None.
Qed.

(** The group check stops at the first step, in the order of the group, whose
    name is taken. *)
Lemma checkSteps_first l1 s l2 existing :
  Forall (λ s', Name s' ∉ stepNames existing) l1 →
  Name s ∈ stepNames existing →
  checkSteps (l1 ++ s :: l2) existing = Some (DuplicateStepName (Name s)).
Proof.
  intros Hfresh Hin. induction Hfresh as [|s' l1 Hs' _ IH]; simpl.
  - assert (checkStepNotAlreadyAdded s existing
            = Some (DuplicateStepName (Name s))) as ->; [|done].
    by apply checkStepNotAlreadyAdded_Some.
  - apply checkStepNotAlreadyAdded_None in Hs'. by rewrite Hs'.
Qed.

(** X2: a colliding prepend step decides the call before anything else is looked
    at: the error names the first prepend step whose name is taken, whatever
    the later prepend steps, the append steps and the volumes are, and the
    task is returned as it was. *)
Theorem first_colliding_prepend_step_reported ts tm l1 s l2 :
  GetStepsToPrepend tm = l1 ++ s :: l2 →
  Forall (λ s', Name s' ∉ stepNames (Steps ts)) l1 →
  Name s ∈ stepNames (Steps ts) →
  ApplyTaskModifier ts tm = (Some (DuplicateStepName (Name s)), ts).
Proof.
  intros Hpre Hfresh Hin. apply ApplyTaskModifier_prepend_rejected.
  rewrite Hpre. by apply checkSteps_first.
Qed.

(** X3: when the prepend group is accepted, the error names the first append step
    whose name is taken by a prepended or an existing step; the task keeps
    the prepend group, no append step and its old volumes, whatever volumes
    the modifier contributes. *)
Theorem first_colliding_append_step_reported ts tm l1 s l2 :
  Forall (λ s', Name s' ∉ stepNames (Steps ts)) (GetStepsToPrepend tm) →
  GetStepsToAppend tm = l1 ++ s :: l2 →
  Forall (λ s', Name s' ∉ stepNames (GetStepsToPrepend tm ++ Steps ts)) l1 →
  Name s ∈ stepNames (GetStepsToPrepend tm ++ Steps ts) →
  ApplyTaskModifier ts tm
  = (Some (DuplicateStepName (Name s)),
     {| Steps := GetStepsToPrepend tm ++ Steps ts;
        Volumes := Volumes ts;
        Other := Other ts |}).
Proof.
  intros Hpre%checkSteps_None Happ Hfresh Hin.
  rewrite (ApplyTaskModifier_append_rejected ts tm (DuplicateStepName (Name s)));
    [done | done |].
  rewrite Happ. by apply checkSteps_first.
Qed.

End reported_step.

(** ** More on the volume merge *)

Section volume_merge_more.
Context {S : Type} `{EqDecision S}.
Implicit Types (w v : v1.Volume S) (vols vs : list (v1.Volume S)) (e : error).

Lemma mergeVolumes_app vols1 vols2 vs :
  mergeVolumes (vols1 ++ vols2) vs =
  match mergeVolumes vols1 vs with
  | (Some e, vs') => (Some e, vs')
  | (None, vs') => mergeVolumes vols2 vs'
  end.
Proof.
  revert vs. induction vols1 as [|w vols1 IH]; intros vs; simpl; [done|].
  destruct (scanVolumes w vs false) as [e|b]; [done | apply IH].
Qed.

(** The merge succeeds exactly when every incoming volume agrees with every
    volume of its name, existing or incoming. *)
Lemma mergeVolumes_None_iff vols vs :
  (mergeVolumes vols vs).1 = None ↔
  Forall (λ w, Forall (λ v, v1.Name w = v1.Name v → w = v) (vs ++ vols)) vols.
Proof.
  split.
  - destruct (mergeVolumes vols vs) as [err vs'] eqn:Hm. simpl. intros ->.
    apply Forall_forall. intros w Hw. apply Forall_forall. intros v Hv.
    destruct (mergeVolumes_success _ _ _ Hm w Hw) as [_ Hsame].
    apply Hsame. apply elem_of_app in Hv as [Hv|Hv].
    + pose proof (mergeVolumes_prefix vols vs) as [k Hk].
      rewrite Hm in Hk. simpl in Hk. rewrite Hk, elem_of_app. by left.
    + by apply (mergeVolumes_success _ _ _ Hm v Hv).
  - revert vs. induction vols as [|a vols IH]; intros vs Hall; simpl; [done|].
    apply Forall_cons in Hall as [Ha Hall].
    rewrite Forall_forall in Ha.
    destruct (scanVolumes a vs false) as [e|b] eqn:Hs.
    { apply scanVolumes_inl in Hs as [_ (v & Hv & Hn & Hne)].
      destruct Hne. apply Ha; [|done]. rewrite elem_of_app. by left. }
    apply IH. eapply Forall_impl; [exact Hall|]. intros w Hw.
    rewrite Forall_forall in Hw. apply Forall_forall. intros v Hv. apply Hw.
    rewrite elem_of_app, elem_of_cons.
    apply elem_of_app in Hv as [Hv|Hv]; [|by right; right].
    destruct b; [by left|].
    apply elem_of_app in Hv as [Hv| ->%list_elem_of_singleton];
      [by left | by right; left].
Qed.

(** A failing merge names an incoming volume that differs from a volume of
    its name held when the merge stops. *)
Lemma mergeVolumes_error_inv vols vs e vs' :
  mergeVolumes vols vs = (Some e, vs') →
  ∃ w v, w ∈ vols ∧ v ∈ vs' ∧ v1.Name w = v1.Name v ∧ w ≠ v
         ∧ e = ConflictingVolume (v1.Name w).
Proof.
  revert vs. induction vols as [|a vols IH]; intros vs; simpl; [done|].
  destruct (scanVolumes a vs false) as [e'|b] eqn:Hs.
  - intros [= <- <-]. apply scanVolumes_inl in Hs as [-> (v & ? & ? & ?)].
    exists a, v. split_and!; [left | done..].
  - intros (w & v & ? & ?)%IH. exists w, v. split; [by right | done].
Qed.

(** What the merge appends is a duplicate-free selection of the incoming
    volumes, in their order, under names that were not present. *)
Lemma mergeVolumes_added_sublist vols vs :
  ∃ added, (mergeVolumes vols vs).2 = vs ++ added
           ∧ added `sublist_of` vols
           ∧ NoDup (volumeNames added)
           ∧ Forall (λ u, v1.Name u ∉ volumeNames vs) added.
Proof.
  revert vs. induction vols as [|w vols IH]; intros vs; simpl.
  { exists []. split_and!; [by rewrite app_nil_r | done | constructor | constructor]. }
  destruct (scanVolumes w vs false) as [e|[]] eqn:Hs; simpl.
  - exists []. split_and!; [by rewrite app_nil_r | apply sublist_nil_l
                           | constructor | constructor].
  - destruct (IH vs) as (added & Heq & Hsub & Hnd & Hf). exists added.
    split_and!; [done | by apply sublist_cons | done | done].
  - destruct (IH (vs ++ [w])) as (added & -> & Hsub & Hnd & Hf).
    assert (Forall (λ u, (v1.Name u ∉ volumeNames vs) ∧ v1.Name u ≠ v1.Name w)
              added) as Hf'.
    { eapply Forall_impl; [exact Hf|]. intros u Hu. unfold volumeNames in Hu.
      rewrite fmap_app, not_elem_of_app in Hu. destruct Hu as [? Hu].
      split; [done|]. intros Heq. apply Hu. simpl. rewrite Heq. left. }
    exists (w :: added). rewrite <- app_assoc. split_and!; [done | | |].
    + by apply sublist_skip.
    + simpl. constructor; [|done].
      intros (u & Hu & Hin)%list_elem_of_fmap.
      rewrite Forall_forall in Hf'. by destruct (Hf' u Hin) as [_ []].
    + constructor.
      * intros Hin. by apply (scanVolumes_not_added _ _ _ Hs) in Hin.
      * eapply Forall_impl; [exact Hf'|]. by intros u [? _].
Qed.

(** The merge keeps volume names unique. *)
Lemma mergeVolumes_NoDup vols vs :
  NoDup (volumeNames vs) → NoDup (volumeNames (mergeVolumes vols vs).2).
Proof.
  intros Hnd.
  destruct (mergeVolumes_added_sublist vols vs) as (added & -> & _ & Hnd' & Hf).
  unfold volumeNames. rewrite fmap_app. apply NoDup_app. split_and!; [done | | done].
  intros n Hn (u & -> & Hu)%list_elem_of_fmap.
  rewrite Forall_forall in Hf. by apply (Hf u Hu).
Qed.

End volume_merge_more.

(** ** Every call, whatever its outcome *)

Section every_call.
Context {C S R T : Type} `{EqDecision S} `{!TaskModifier C S T}.
Implicit Types (ts : TaskSpec C S R) (tm : T) (e : error).

(** The three ways a call ends. *)
Lemma ApplyTaskModifier_cases ts tm :
  (∃ e, checkSteps (GetStepsToPrepend tm) (Steps ts) = Some e
        ∧ ApplyTaskModifier ts tm = (Some e, ts))
  ∨ (checkSteps (GetStepsToPrepend tm) (Steps ts) = None
     ∧ ∃ e, checkSteps (GetStepsToAppend tm) (GetStepsToPrepend tm ++ Steps ts)
            = Some e
            ∧ ApplyTaskModifier ts tm
              = (Some e, setSteps ts (GetStepsToPrepend tm ++ Steps ts)))
  ∨ (checkSteps (GetStepsToPrepend tm) (Steps ts) = None
     ∧ checkSteps (GetStepsToAppend tm) (GetStepsToPrepend tm ++ Steps ts) = None
     ∧ ApplyTaskModifier ts tm
       = ((mergeVolumes (GetVolumes tm) (Volumes ts)).1,
          {| Steps := GetStepsToPrepend tm ++ Steps ts ++ GetStepsToAppend tm;
             Volumes := (mergeVolumes (GetVolumes tm) (Volumes ts)).2;
             Other := Other ts |})).
Proof.
  destruct (checkSteps (GetStepsToPrepend tm) (Steps ts)) as [e|] eqn:Hpre.
  { left. exists e. split; [done|]. by apply ApplyTaskModifier_prepend_rejected. }
  right.
  destruct (checkSteps (GetStepsToAppend tm) (GetStepsToPrepend tm ++ Steps ts))
    as [e|] eqn:Happ.
  { left. split; [done|]. exists e. split; [done|].
    by apply ApplyTaskModifier_append_rejected. }
  right. split_and!; [done..|]. by apply ApplyTaskModifier_steps_accepted.
Qed.

(** X4: the call succeeds exactly when no prepend step name is taken by an
    existing step, no append step name is taken by a prepended or existing
    step, and every contributed volume agrees with every volume of its name,
    existing or contributed; the task it leaves is then prepend ++ steps ++
    append with the merged volumes. *)
Theorem ApplyTaskModifier_succeeds_iff ts tm ts' :
  ApplyTaskModifier ts tm = (None, ts') ↔
  Forall (λ s, Name s ∉ stepNames (Steps ts)) (GetStepsToPrepend tm)
  ∧ Forall (λ s, Name s ∉ stepNames (GetStepsToPrepend tm ++ Steps ts))
      (GetStepsToAppend tm)
  ∧ Forall (λ w, Forall (λ v, v1.Name w = v1.Name v → w = v)
                   (Volumes ts ++ GetVolumes tm)) (GetVolumes tm)
  ∧ ts' = {| Steps := GetStepsToPrepend tm ++ Steps ts ++ GetStepsToAppend tm;
             Volumes := (mergeVolumes (GetVolumes tm) (Volumes ts)).2;
             Other := Other ts |}.
Proof.
  rewrite <- !checkSteps_None, <- mergeVolumes_None_iff. split.
  - intros Hrun.
    destruct (ApplyTaskModifier_cases ts tm)
      as [(e & _ & He)|[(_ & e & _ & He)|(Hpre & Happ & He)]];
      rewrite He in Hrun; [done | done |].
    injection Hrun as Hm <-. done.
  - intros (Hpre & Happ & Hm & ->).
    rewrite ApplyTaskModifier_steps_accepted by done. by rewrite Hm.
Qed.

(** X5: an error the call returns is truthful about the task it leaves: a
    duplicate-step error names a contributed step and a step the task holds;
    a conflicting-volume error names a contributed volume that differs from a
    volume of that name the task holds. *)
Theorem returned_error_names_present_item ts tm e ts' :
  ApplyTaskModifier ts tm = (Some e, ts') →
  match e with
  | DuplicateStepName n =>
      n ∈ stepNames (GetStepsToPrepend tm ++ GetStepsToAppend tm)
      ∧ n ∈ stepNames (Steps ts')
  | ConflictingVolume n =>
      ∃ w v, w ∈ GetVolumes tm ∧ v ∈ Volumes ts'
             ∧ v1.Name w = n ∧ v1.Name v = n ∧ w ≠ v
  end.
Proof.
  intros Hrun.
  destruct (ApplyTaskModifier_cases ts tm)
    as [(e' & Hc & He)|[(_ & e' & Hc & He)|(_ & _ & He)]];
    rewrite He in Hrun.
  - injection Hrun as -> <-.
    apply checkSteps_Some in Hc as (s & Hs & Hin & ->). split; [|done].
    rewrite stepNames_app, elem_of_app. left. apply list_elem_of_fmap. eauto.
  - injection Hrun as -> <-.
    apply checkSteps_Some in Hc as (s & Hs & Hin & ->). split; [|done].
    rewrite stepNames_app, elem_of_app. right. apply list_elem_of_fmap. eauto.
  - injection Hrun as Hm <-. simpl.
    destruct (mergeVolumes (GetVolumes tm) (Volumes ts)) as [err vs'] eqn:Hmv.
    simpl in Hm. subst err.
    apply mergeVolumes_error_inv in Hmv as (w & v & ? & ? & ? & ? & ->).
    exists w, v. split_and!; done.
Qed.

(** X6: no call removes, reorders or rewrites what the task holds: the old steps
    stay together, with the prepend group (or nothing) in front and the
    append group (or nothing) behind; the old volumes stay in front of the
    volumes the call adds, which are contributed volumes in their order; the
    other fields are untouched. *)
Theorem existing_content_kept ts tm :
  ∃ added,
    (Steps (ApplyTaskModifier ts tm).2 = Steps ts
     ∨ Steps (ApplyTaskModifier ts tm).2 = GetStepsToPrepend tm ++ Steps ts
     ∨ Steps (ApplyTaskModifier ts tm).2
       = GetStepsToPrepend tm ++ Steps ts ++ GetStepsToAppend tm)
    ∧ Volumes (ApplyTaskModifier ts tm).2 = Volumes ts ++ added
    ∧ added `sublist_of` GetVolumes tm
    ∧ Other (ApplyTaskModifier ts tm).2 = Other ts.
Proof.
  destruct (ApplyTaskModifier_cases ts tm)
    as [(e & _ & ->)|[(_ & e & _ & ->)|(_ & _ & ->)]]; simpl.
  - exists []. rewrite app_nil_r. split_and!; [by left | done | apply sublist_nil_l | done].
  - exists []. rewrite app_nil_r.
    split_and!; [by right; left | done | apply sublist_nil_l | done].
  - destruct (mergeVolumes_added_sublist (GetVolumes tm) (Volumes ts))
      as (added & Heq & Hsub & _).
    exists added. split_and!; [by right; right | done..].
Qed.

(** X7: step names stay unique: when the task's step names are pairwise distinct
    and so are the names inside the prepend group and inside the append
    group, the step names of the task are pairwise distinct after the call,
    successful or not. *)
Theorem step_names_stay_unique ts tm :
  NoDup (stepNames (Steps ts)) →
  NoDup (stepNames (GetStepsToPrepend tm)) →
  NoDup (stepNames (GetStepsToAppend tm)) →
  NoDup (stepNames (Steps (ApplyTaskModifier ts tm).2)).
Proof.
  intros Hts Hpre Happ.
  assert (checkSteps (GetStepsToPrepend tm) (Steps ts) = None →
          NoDup (stepNames (GetStepsToPrepend tm ++ Steps ts))) as Hfront.
  { intros Hc%checkSteps_None. rewrite stepNames_app.
    apply NoDup_app. split_and!; [done | | done].
    intros n (s & -> & Hs)%list_elem_of_fmap.
    rewrite Forall_forall in Hc. by apply Hc. }
  destruct (ApplyTaskModifier_cases ts tm)
    as [(e & _ & ->)|[(Hc & e & _ & ->)|(Hc & Hc' & ->)]]; simpl; [done | auto |].
  rewrite app_assoc, stepNames_app.
  apply NoDup_app. split_and!; [auto | | done].
  intros n Hn (s & -> & Hs)%list_elem_of_fmap.
  apply checkSteps_None in Hc'. rewrite Forall_forall in Hc'.
  by apply (Hc' s Hs).
Qed.

(** X8: volume names stay unique: when the task's volume names are pairwise
    distinct they are so after the call, successful or not, whatever the
    modifier contributes. *)
Theorem volume_names_stay_unique ts tm :
  NoDup (volumeNames (Volumes ts)) →
  NoDup (volumeNames (Volumes (ApplyTaskModifier ts tm).2)).
Proof.
  intros Hnd.
  destruct (ApplyTaskModifier_cases ts tm)
    as [(e & _ & ->)|[(_ & e & _ & ->)|(_ & _ & ->)]]; simpl; [done..|].
  by apply mergeVolumes_NoDup.
Qed.

End every_call.

(** ** One volume, two calls, reordered volumes, repeated calls *)

Section composition.
Context {C S R : Type} `{EqDecision S}.
Implicit Types (ts : TaskSpec C S R) (w v : v1.Volume S).
Implicit Types (vols vs : list (v1.Volume S)).

(** X9: a modifier that contributes the single volume [w] and no step: [w] is
    appended behind the task's volumes when its name is not present; the task
    is left as it is, without error, when every volume of that name is
    identical to [w]; the conflicting-volume error for [w] is returned, the
    task unchanged, when some volume of that name differs. *)
Theorem single_volume_outcomes ts w :
  ApplyTaskModifier ts (InternalTaskModifier.mk [] [] [w])
  = if decide (v1.Name w ∈ volumeNames (Volumes ts)) then
      if decide (Forall (λ v, v1.Name w = v1.Name v → w = v) (Volumes ts))
      then (None, ts)
      else (Some (ConflictingVolume (v1.Name w)), ts)
    else (None, setVolumes ts (Volumes ts ++ [w])).
Proof.
  destruct ts as [steps vs other].
  unfold ApplyTaskModifier, setVolumes, setSteps. simpl. rewrite app_nil_r.
  destruct (decide (v1.Name w ∈ volumeNames vs)) as [Hin|Hin].
  - destruct (decide (Forall (λ v, v1.Name w = v1.Name v → w = v) vs))
      as [Hall|Hall].
    + rewrite Forall_forall in Hall.
      assert (scanVolumes w vs false = inr true) as ->; [|done].
      apply scanVolumes_inr. split; [done|]. simpl. symmetry.
      apply bool_decide_eq_true.
      apply list_elem_of_fmap in Hin as (v & Hn & Hv). by rewrite (Hall v Hv Hn).
    + destruct (scanVolumes w vs false) as [e|b] eqn:Hs.
      * by apply scanVolumes_inl in Hs as [-> _].
      * apply scanVolumes_inr in Hs as [Hsame _]. destruct Hall.
        apply Forall_forall. auto.
  - by rewrite scanVolumes_fresh.
Qed.

(** On success the merged volumes do not depend on the order in which they
    are contributed, up to the order of the appended volumes. *)
Lemma mergeVolumes_Permutation vols vols' vs :
  vols ≡ₚ vols' →
  (mergeVolumes vols vs).1 = None →
  (mergeVolumes vols' vs).1 = None
  ∧ (mergeVolumes vols vs).2 ≡ₚ (mergeVolumes vols' vs).2.
Proof.
  intros Hperm Hok.
  assert ((mergeVolumes vols' vs).1 = None) as Hok'.
  { apply mergeVolumes_None_iff. apply mergeVolumes_None_iff in Hok.
    rewrite <- Hperm. eapply Forall_impl; [exact Hok|]. intros w Hw.
    by rewrite <- Hperm. }
  split; [done|].
  assert (∀ l, (mergeVolumes l vs).1 = None →
            ∃ added, (mergeVolumes l vs).2 = vs ++ added ∧ NoDup added
              ∧ ∀ x, x ∈ added ↔ x ∈ l ∧ v1.Name x ∉ volumeNames vs) as Hchar.
  { intros l Hl.
    destruct (mergeVolumes_added_sublist l vs) as (added & Heq & Hsub & Hnd & Hf).
    exists added. split; [done|]. split; [by apply NoDup_fmap_1 in Hnd|].
    rewrite Forall_forall in Hf. intros x. split.
    - intros Hx. split; [|auto]. by eapply sublist_subseteq.
    - intros [Hx Hfresh].
      destruct (mergeVolumes l vs) as [err vs'] eqn:Hm. simpl in *. subst.
      destruct (mergeVolumes_success _ _ _ Hm x Hx) as [Hin _].
      apply elem_of_app in Hin as [Hin|Hin]; [|done].
      destruct Hfresh. apply list_elem_of_fmap. eauto. }
  destruct (Hchar vols Hok) as (added & -> & Hnd & Hin).
  destruct (Hchar vols' Hok') as (added' & -> & Hnd' & Hin').
  apply Permutation_app_head. apply NoDup_Permutation; [done..|].
  intros x. rewrite Hin, Hin'. by rewrite Hperm.
Qed.

Context {T : Type} `{!TaskModifier C S T}.
Implicit Types (tm : T).

(** X10: two modifiers that differ only in the order of their volumes: when the
    call succeeds for one it succeeds for the other, with the same steps and
    the same volumes up to order. *)
Theorem volume_order_irrelevant ts tm tm' ts1 :
  GetStepsToPrepend tm' = GetStepsToPrepend tm →
  GetStepsToAppend tm' = GetStepsToAppend tm →
  GetVolumes tm' ≡ₚ GetVolumes tm →
  ApplyTaskModifier ts tm = (None, ts1) →
  ∃ ts2, ApplyTaskModifier ts tm' = (None, ts2)
         ∧ Steps ts2 = Steps ts1
         ∧ Volumes ts2 ≡ₚ Volumes ts1
         ∧ Other ts2 = Other ts1.
Proof.
  intros Hpre Happ Hvols
    (Hc & Hc' & Hm & Hsteps & Hother)%ApplyTaskModifier_success_inv.
  destruct (mergeVolumes_Permutation (GetVolumes tm) (GetVolumes tm') (Volumes ts))
    as [Hok Hp]; [done | by rewrite Hm |].
  rewrite Hm in Hp. simpl in Hp.
  eexists. split.
  { rewrite ApplyTaskModifier_steps_accepted, Hok by (by rewrite Hpre, ?Happ).
    reflexivity. }
  simpl. rewrite Hpre, Happ, Hsteps, Hother. done.
Qed.

(** X11: two successful calls in a row leave the task that a single call leaves
    for the modifier made of both: second prepend group in front of the
    first, first append group in front of the second, first volumes in front
    of the second. *)
Theorem two_calls_as_one ts tm1 tm2 ts1 ts2 :
  ApplyTaskModifier ts tm1 = (None, ts1) →
  ApplyTaskModifier ts1 tm2 = (None, ts2) →
  ApplyTaskModifier ts
    (InternalTaskModifier.mk
       (GetStepsToPrepend tm2 ++ GetStepsToPrepend tm1)
       (GetStepsToAppend tm1 ++ GetStepsToAppend tm2)
       (GetVolumes tm1 ++ GetVolumes tm2))
  = (None, ts2).
Proof.
  intros (H1 & H2 & Hm1 & Hs1 & Ho1)%ApplyTaskModifier_success_inv
         (H3 & H4 & Hm2 & Hs2 & Ho2)%ApplyTaskModifier_success_inv.
  rewrite Hs1 in H3, H4.
  apply checkSteps_None in H1, H2, H3, H4.
  rewrite Forall_forall in H1, H2, H3, H4.
  rewrite ApplyTaskModifier_steps_accepted; simpl.
  - rewrite mergeVolumes_app, Hm1, Hm2. simpl. destruct ts2 as [s2 v2 o2].
    simpl in *. subst. rewrite Hs1, Ho1. by rewrite <- !app_assoc.
  - apply checkSteps_None, Forall_forall. intros s [Hs|Hs]%elem_of_app.
    + intros Hin. apply (H3 s Hs). rewrite !stepNames_app, !elem_of_app. auto.
    + by apply H1.
  - apply checkSteps_None, Forall_forall. intros s [Hs|Hs]%elem_of_app.
    + rewrite <- app_assoc, stepNames_app, not_elem_of_app. split; [|by apply H2].
      intros (p & Hn & Hp)%list_elem_of_fmap. apply (H3 p Hp).
      rewrite !stepNames_app, !elem_of_app. right. right.
      rewrite <- Hn. apply list_elem_of_fmap. eauto.
    + intros Hin. apply (H4 s Hs).
      rewrite !stepNames_app, !elem_of_app in Hin.
      rewrite !stepNames_app, !elem_of_app. tauto.
Qed.

(** X12: a modifier that contributes a step cannot be applied twice: after a
    successful call, the same modifier is rejected with the duplicate-step
    error and the task stays as the first call left it. *)
Theorem second_application_rejected ts tm ts1 :
  ApplyTaskModifier ts tm = (None, ts1) →
  GetStepsToPrepend tm ++ GetStepsToAppend tm ≠ [] →
  ∃ n, ApplyTaskModifier ts1 tm = (Some (DuplicateStepName n), ts1).
Proof.
  intros (_ & _ & _ & Hs1 & _)%ApplyTaskModifier_success_inv Hne.
  destruct (GetStepsToPrepend tm) as [|p pre] eqn:Hpre.
  - destruct (GetStepsToAppend tm) as [|a app] eqn:Happ; [done|].
    assert (Name a ∈ stepNames ([] ++ Steps ts1)) as Hin.
    { rewrite Hs1, !stepNames_app, !elem_of_app. right. right. right. left. }
    destruct (checkSteps_collision (a :: app) ([] ++ Steps ts1) a)
      as (n & Hc & _); [left | done |].
    exists n.
    rewrite (ApplyTaskModifier_append_rejected ts1 tm (DuplicateStepName n));
      rewrite ?Hpre, ?Happ; [by destruct ts1 | done | done].
  - assert (Name p ∈ stepNames (Steps ts1)) as Hin.
    { rewrite Hs1, !stepNames_app, !elem_of_app. left. left. }
    destruct (checkSteps_collision (p :: pre) (Steps ts1) p)
      as (n & Hc & _); [left | done |].
    exists n. apply ApplyTaskModifier_prepend_rejected. by rewrite Hpre.
Qed.

End composition.

(** ** The registry tables and the error messages *)

(** X13: every resource type listed as a legal output is mapped to [true] and is
    one of the known resource types, and the list of known resource types
    names no type twice. *)
Theorem output_types_are_known_types :
  (∀ t b, AllowedOutputResources !! t = Some b →
          b = true ∧ t ∈ AllResourceTypes)
  ∧ NoDup AllResourceTypes.
Proof.
  split; [|compute_done].
  intros t b. unfold AllowedOutputResources. rewrite !lookup_insert, lookup_empty.
  destruct (decide (PipelineResourceTypeStorage = t)) as [<-|_].
  { intros [= <-]. split; [done | compute_done]. }
  destruct (decide (PipelineResourceTypeGit = t)) as [<-|_]; [|done].
  intros [= <-]. split; [done | compute_done].
Qed.

Lemma string_length_app (a s : string) :
  String.length (a +:+ s) = String.length a + String.length s.
Proof. induction a as [|c a IH]; simpl; [done | by rewrite IH]. Qed.

Lemma string_app_inj_r (a b s : string) : a +:+ s = b +:+ s → a = b.
Proof.
  intros Heq.
  assert (String.length a = String.length b) as Hlen.
  { apply (f_equal String.length) in Heq. rewrite !string_length_app in Heq. lia. }
  revert b Heq Hlen. induction a as [|c a IH]; intros [|c' b]; simpl;
    [done | intros _ [=] | intros _ [=] |].
  intros [= -> Heq] [= Hlen]. f_equal. by apply IH.
Qed.

(** X14: the message of an error tells which error it is: two errors with the same
    message are the same error, of the same kind and for the same name. *)
Theorem Error_message_identifies_error (e1 e2 : error) :
  Error e1 = Error e2 → e1 = e2.
Proof.
  destruct e1 as [n|n], e2 as [m|m]; simpl; intros Heq;
    [| discriminate | discriminate |].
  - injection Heq as Heq. f_equal. by eapply string_app_inj_r.
  - injection Heq as Heq. f_equal. by eapply string_app_inj_r.
Qed.

(** ** Runs on concrete tasks, continued *)

Lemma first_colliding_prepend_step_reported_witness :
  Forall (λ s', Name s' ∉ stepNames [step "A"; step "B"]) [step "X"]
  ∧ Name (step "B") ∈ stepNames [step "A"; step "B"]
  ∧ ApplyTaskModifier (task [step "A"; step "B"] [volume "creds" "X"])
      (modifier [step "X"; step "B"; step "A"] [step "A"] [volume "creds" "Y"])
    = (Some (DuplicateStepName "B"),
       task [step "A"; step "B"] [volume "creds" "X"]).
Proof.
  split; [compute_done|]. split; [compute_done|].
  exact (first_colliding_prepend_step_reported
           (task [step "A"; step "B"] [volume "creds" "X"])
           (modifier [step "X"; step "B"; step "A"] [step "A"]
              [volume "creds" "Y"])
           [step "X"] (step "B") [step "A"]
           eq_refl ltac:(compute_done) ltac:(compute_done)).
Defined.

Lemma first_colliding_append_step_reported_witness :
  Forall (λ s', Name s' ∉ stepNames [step "A"]) [step "X"]
  ∧ Forall (λ s', Name s' ∉ stepNames [step "X"; step "A"]) [step "Y"]
  ∧ Name (step "X") ∈ stepNames [step "X"; step "A"]
  ∧ ApplyTaskModifier (task [step "A"] [volume "creds" "X"])
      (modifier [step "X"] [step "Y"; step "X"; step "A"] [volume "creds" "Y"])
    = (Some (DuplicateStepName "X"),
       task [step "X"; step "A"] [volume "creds" "X"]).
Proof.
  split; [compute_done|]. split; [compute_done|]. split; [compute_done|].
  exact (first_colliding_append_step_reported
           (task [step "A"] [volume "creds" "X"])
           (modifier [step "X"] [step "Y"; step "X"; step "A"]
              [volume "creds" "Y"])
           [step "Y"] (step "X") [step "A"]
           ltac:(compute_done) eq_refl ltac:(compute_done) ltac:(compute_done)).
Defined.

Lemma returned_error_names_present_item_witness :
  ApplyTaskModifier (task [step "A"] [volume "creds" "X"])
    (modifier [step "P"] [] [volume "cache" "Z"; volume "creds" "Y"])
  = (Some (ConflictingVolume "creds"),
     task [step "P"; step "A"] [volume "creds" "X"; volume "cache" "Z"])
  ∧ ∃ w v, w ∈ [volume "cache" "Z"; volume "creds" "Y"]
           ∧ v ∈ [volume "creds" "X"; volume "cache" "Z"]
           ∧ v1.Name w = "creds" ∧ v1.Name v = "creds" ∧ w ≠ v.
Proof.
  split; [reflexivity|].
  exact (returned_error_names_present_item
           (task [step "A"] [volume "creds" "X"])
           (modifier [step "P"] [] [volume "cache" "Z"; volume "creds" "Y"])
           (ConflictingVolume "creds")
           (task [step "P"; step "A"] [volume "creds" "X"; volume "cache" "Z"])
           eq_refl).
Defined.

Lemma step_names_stay_unique_witness :
  NoDup (stepNames [step "A"; step "B"])
  ∧ NoDup (stepNames [step "X"; step "Y"])
  ∧ NoDup (stepNames [step "Z"; step "A"])
  ∧ NoDup (stepNames (Steps (ApplyTaskModifier
                               (task [step "A"; step "B"] [])
                               (modifier [step "X"; step "Y"]
                                  [step "Z"; step "A"] [])).2)).
Proof.
  split; [compute_done|]. split; [compute_done|]. split; [compute_done|].
  exact (step_names_stay_unique
           (task [step "A"; step "B"] [])
           (modifier [step "X"; step "Y"] [step "Z"; step "A"] [])
           ltac:(compute_done) ltac:(compute_done) ltac:(compute_done)).
Defined.

Lemma volume_names_stay_unique_witness :
  NoDup (volumeNames [volume "creds" "X"])
  ∧ NoDup (volumeNames (Volumes (ApplyTaskModifier
                                   (task [] [volume "creds" "X"])
                                   (modifier [] []
                                      [volume "cache" "Z"; volume "cache" "Z";
                                       volume "creds" "Y"])).2)).
Proof.
  split; [compute_done|].
  exact (volume_names_stay_unique
           (task [] [volume "creds" "X"])
           (modifier [] []
              [volume "cache" "Z"; volume "cache" "Z"; volume "creds" "Y"])
           ltac:(compute_done)).
Defined.

Lemma volume_order_irrelevant_witness :
  [volume "tmp" "T"; volume "cache" "Z"] ≡ₚ [volume "cache" "Z"; volume "tmp" "T"]
  ∧ ApplyTaskModifier (task [step "A"] [volume "creds" "X"])
      (modifier [step "P"] [] [volume "cache" "Z"; volume "tmp" "T"])
    = (None, task [step "P"; step "A"]
               [volume "creds" "X"; volume "cache" "Z"; volume "tmp" "T"])
  ∧ ∃ ts2,
      ApplyTaskModifier (task [step "A"] [volume "creds" "X"])
        (modifier [step "P"] [] [volume "tmp" "T"; volume "cache" "Z"])
      = (None, ts2)
      ∧ Steps ts2 = [step "P"; step "A"]
      ∧ Volumes ts2
        ≡ₚ [volume "creds" "X"; volume "cache" "Z"; volume "tmp" "T"]
      ∧ Other ts2 = tt.
Proof.
  split; [apply Permutation_swap|]. split; [reflexivity|].
  exact (volume_order_irrelevant
           (task [step "A"] [volume "creds" "X"])
           (modifier [step "P"] [] [volume "cache" "Z"; volume "tmp" "T"])
           (modifier [step "P"] [] [volume "tmp" "T"; volume "cache" "Z"])
           (task [step "P"; step "A"]
              [volume "creds" "X"; volume "cache" "Z"; volume "tmp" "T"])
           eq_refl eq_refl (Permutation_swap _ _ _) eq_refl).
Defined.

Lemma two_calls_as_one_witness :
  ApplyTaskModifier (task [step "A"] [])
    (modifier [step "P"] [step "Q"] [volume "creds" "X"])
  = (None, task [step "P"; step "A"; step "Q"] [volume "creds" "X"])
  ∧ ApplyTaskModifier (task [step "P"; step "A"; step "Q"] [volume "creds" "X"])
      (modifier [step "R"] [step "S"] [volume "creds" "X"; volume "cache" "Z"])
    = (None, task [step "R"; step "P"; step "A"; step "Q"; step "S"]
               [volume "creds" "X"; volume "cache" "Z"])
  ∧ ApplyTaskModifier (task [step "A"] [])
      (modifier [step "R"; step "P"] [step "Q"; step "S"]
         [volume "creds" "X"; volume "creds" "X"; volume "cache" "Z"])
    = (None, task [step "R"; step "P"; step "A"; step "Q"; step "S"]
               [volume "creds" "X"; volume "cache" "Z"]).
Proof.
  split; [reflexivity|]. split; [reflexivity|].
  exact (two_calls_as_one
           (task [step "A"] [])
           (modifier [step "P"] [step "Q"] [volume "creds" "X"])
           (modifier [step "R"] [step "S"]
              [volume "creds" "X"; volume "cache" "Z"])
           (task [step "P"; step "A"; step "Q"] [volume "creds" "X"])
           (task [step "R"; step "P"; step "A"; step "Q"; step "S"]
              [volume "creds" "X"; volume "cache" "Z"])
           eq_refl eq_refl).
Defined.

Lemma second_application_rejected_witness :
  ApplyTaskModifier (task [step "A"] [])
    (modifier [] [step "Q"] [volume "creds" "X"])
  = (None, task [step "A"; step "Q"] [volume "creds" "X"])
  ∧ [] ++ [step "Q"] ≠ []
  ∧ ∃ n,
      ApplyTaskModifier (task [step "A"; step "Q"] [volume "creds" "X"])
        (modifier [] [step "Q"] [volume "creds" "X"])
      = (Some (DuplicateStepName n),
         task [step "A"; step "Q"] [volume "creds" "X"]).
Proof.
  split; [reflexivity|]. split; [done|].
  exact (second_application_rejected
           (task [step "A"] [])
           (modifier [] [step "Q"] [volume "creds" "X"])
           (task [step "A"; step "Q"] [volume "creds" "X"])
           eq_refl ltac:(done)).
Defined.

Lemma Error_message_identifies_error_witness :
  Error (ConflictingVolume "creds")
  = "tried to add volume creds already added but with different contents"
  ∧ Error (DuplicateStepName "A") = "Step A cannot be added again"
  ∧ ConflictingVolume "creds" = ConflictingVolume "creds".
Proof.
  split; [reflexivity|]. split; [reflexivity|].
  exact (Error_message_identifies_error
           (ConflictingVolume "creds") (ConflictingVolume "creds") eq_refl).
Defined.

(** ** Disjoint step groups *)

Section disjoint_groups.
Context {C S R T : Type} `{EqDecision S} `{!TaskModifier C S T}.
Implicit Types (ts : TaskSpec C S R) (tm : T).

(** C1 (amended): when the prepend and append step names are disjoint from
    the existing step names and from each other, the call returns no
    duplicate-step error and the task's step list becomes
    prepend ++ original ++ append, of length
    len(original) + len(prepend) + len(append); if in addition every
    contributed volume is identical to every volume of its name among the
    existing and the contributed volumes, the call succeeds. *)
Theorem disjoint_groups_step_list ts tm :
  Forall (λ s, Name s ∉ stepNames (Steps ts)) (GetStepsToPrepend tm) →
  Forall (λ s, Name s ∉ stepNames (Steps ts)) (GetStepsToAppend tm) →
  Forall (λ s, Name s ∉ stepNames (GetStepsToPrepend tm)) (GetStepsToAppend tm) →
  Steps (ApplyTaskModifier ts tm).2
  = GetStepsToPrepend tm ++ Steps ts ++ GetStepsToAppend tm
  ∧ length (Steps (ApplyTaskModifier ts tm).2)
    = length (Steps ts) + length (GetStepsToPrepend tm)
      + length (GetStepsToAppend tm)
  ∧ (∀ n, (ApplyTaskModifier ts tm).1 ≠ Some (DuplicateStepName n))
  ∧ (Forall (λ w, Forall (λ v, v1.Name w = v1.Name v → w = v)
                    (Volumes ts ++ GetVolumes tm)) (GetVolumes tm) →
     (ApplyTaskModifier ts tm).1 = None).
Proof.
  intros Hpre Happ Hcross.
  apply checkSteps_None in Hpre.
  pose proof (Forall_fresh_app _ _ _ Hcross Happ) as Happ'.
  apply checkSteps_None in Happ'.
  rewrite ApplyTaskModifier_steps_accepted by done. simpl.
  split_and!; [done | | |].
  - rewrite !length_app. lia.
  - intros n Hn. destruct (mergeVolumes _ _) as [err vs] eqn:Hm.
    simpl in Hn. subst err.
    by destruct (mergeVolumes_error _ _ _ _ Hm) as (? & _ & ?).
  - apply mergeVolumes_None_iff.
Qed.

End disjoint_groups.

Lemma disjoint_groups_step_list_witness :
  Forall (λ s, Name s ∉ stepNames [step "A"; step "B"]) [step "P"]
  ∧ Forall (λ s, Name s ∉ stepNames [step "A"; step "B"]) [step "Q"; step "R"]
  ∧ Forall (λ s, Name s ∉ stepNames [step "P"]) [step "Q"; step "R"]
  ∧ Forall (λ w, Forall (λ v, v1.Name w = v1.Name v → w = v)
                   ([volume "creds" "X"]
                    ++ [volume "cache" "Y"; volume "creds" "X";
                        volume "cache" "Y"]))
      [volume "cache" "Y"; volume "creds" "X"; volume "cache" "Y"]
  ∧ Steps (ApplyTaskModifier
             (task [step "A"; step "B"] [volume "creds" "X"])
             (modifier [step "P"] [step "Q"; step "R"]
                [volume "cache" "Y"; volume "creds" "X"; volume "cache" "Y"])).2
    = [step "P"; step "A"; step "B"; step "Q"; step "R"]
  ∧ length (Steps (ApplyTaskModifier
                     (task [step "A"; step "B"] [volume "creds" "X"])
                     (modifier [step "P"] [step "Q"; step "R"]
                        [volume "cache" "Y"; volume "creds" "X";
                         volume "cache" "Y"])).2)
    = 2 + 1 + 2
  ∧ (ApplyTaskModifier
       (task [step "A"; step "B"] [volume "creds" "X"])
       (modifier [step "P"] [step "Q"; step "R"]
          [volume "cache" "Y"; volume "creds" "X"; volume "cache" "Y"])).1
    = None.
Proof.
  split; [compute_done|]. split; [compute_done|]. split; [compute_done|].
  split; [compute_done|].
  pose proof (disjoint_groups_step_list
                (task [step "A"; step "B"] [volume "creds" "X"])
                (modifier [step "P"] [step "Q"; step "R"]
                   [volume "cache" "Y"; volume "creds" "X"; volume "cache" "Y"])
                ltac:(compute_done) ltac:(compute_done) ltac:(compute_done))
    as (Hsteps & Hlen & _ & Hok).
  split; [exact Hsteps|]. split; [exact Hlen|].
  exact (Hok ltac:(compute_done)).
Defined.
